(** * Exchange sort and ordered search over [std::vector<int>]

    A shallow embedding of [samples/algorithms.cpp] ([bubbleSort],
    [binarySearch]) and [samples/algorithms_clone.cpp] ([sortArray],
    [findElement]), and the properties of the two algorithms.

    Data model (LP64): [int] is a 32-bit two's complement integer, held as a
    [Z]; conversion to [int] and [int] arithmetic wrap around ([wrap]).
    [size_t] is a 64-bit unsigned integer ([to_size_t]). A
    [std::vector<int>] is a [list Z].

    Signed overflow is undefined in the source, and the wrapped value is
    only what common builds compute. The positive results below are
    therefore stated for inputs on which no [int] operation overflows:
    [no_int_overflow] for the sorts, a bound on the size for the searches.

    An element access outside the vector has no defined behaviour in the
    source: the model stops there with [Fault]. Loops are run with a fuel
    counter; running out of fuel is the separate outcome [OutOfFuel], and
    the results below show that the fuel given by default is enough. *)

From Stdlib Require Import ZArith Lia.
From stdpp Require Import base tactics option list numbers sorting.

Local Open Scope Z_scope.

(** ** Machine integers *)

Definition INT_MIN : Z := - 2 ^ 31.
Definition INT_MAX : Z := 2 ^ 31 - 1.

(** Conversion to [int], and the result of [int] arithmetic. *)
Definition wrap (z : Z) : Z := (z + 2 ^ 31) mod 2 ^ 32 - 2 ^ 31.

(** Conversion to [size_t], and the result of [size_t] arithmetic. *)
Definition to_size_t (z : Z) : Z := z mod 2 ^ 64.

(** ** Outcomes of a run *)

Inductive outcome (A : Type) : Type :=
  | Ret (a : A)
  | Fault
  | OutOfFuel.
Arguments Ret {A} a.
Arguments Fault {A}.
Arguments OutOfFuel {A}.

#[export] Instance outcome_ret : MRet outcome := @Ret.
#[export] Instance outcome_bind : MBind outcome := fun A B f m =>
  match m with
  | Ret a => f a
  | Fault => Fault
  | OutOfFuel => OutOfFuel
  end.
#[export] Instance outcome_fmap : FMap outcome := fun A B f m =>
  match m with
  | Ret a => Ret (f a)
  | Fault => Fault
  | OutOfFuel => OutOfFuel
  end.

(** ** Vectors *)

(** [arr.size()], a [size_t]. *)
Definition vsize (arr : list Z) : Z := Z.of_nat (length arr).

(** Reading [arr[j]] for an [int] index [j]: the index is converted to
    [size_t] by [operator[]]. *)
Definition vget (arr : list Z) (j : Z) : outcome Z :=
  if to_size_t j <? vsize arr then
    match arr !! Z.to_nat (to_size_t j) with
    | Some v => Ret v
    | None => Fault
    end
  else Fault.

(** Writing [arr[j] = v]. *)
Definition vset (arr : list Z) (j : Z) (v : Z) : outcome (list Z) :=
  if to_size_t j <? vsize arr
  then Ret (<[Z.to_nat (to_size_t j) := v]> arr)
  else Fault.

(** [std::swap(arr[p], arr[q])]. *)
Definition vswap (arr : list Z) (p q : Z) : outcome (list Z) :=
  a ← vget arr p;
  b ← vget arr q;
  arr1 ← vset arr p b;
  vset arr1 q a.

(** ** algorithms.cpp *)

(** The inner [for] loop of [bubbleSort], entered at [j]. *)
Fixpoint bubbleSort_inner (fuel : nat) (n i j : Z) (arr : list Z)
  : outcome (list Z) :=
  match fuel with
  | O => OutOfFuel
  | S fuel =>
      if j <? wrap (wrap (n - i) - 1) then
        a ← vget arr j;
        b ← vget arr (wrap (j + 1));
        arr1 ← (if a >? b then vswap arr j (wrap (j + 1)) else Ret arr);
        bubbleSort_inner fuel n i (wrap (j + 1)) arr1
      else Ret arr
  end.

(** The outer [for] loop of [bubbleSort], entered at [i]. *)
Fixpoint bubbleSort_outer (fuel : nat) (n i : Z) (arr : list Z)
  : outcome (list Z) :=
  match fuel with
  | O => OutOfFuel
  | S fuel =>
      if i <? wrap (n - 1) then
        arr1 ← bubbleSort_inner fuel n i 0 arr;
        bubbleSort_outer fuel n (wrap (i + 1)) arr1
      else Ret arr
  end.

Definition bubbleSort_fuel (fuel : nat) (arr : list Z) : outcome (list Z) :=
  let n := wrap (vsize arr) in
  bubbleSort_outer fuel n 0 arr.

(** Each loop tests its condition at most [length arr + 1] times. *)
Definition bubbleSort (arr : list Z) : outcome (list Z) :=
  bubbleSort_fuel (S (length arr)) arr.

(** One round of the [while] loop of [binarySearch]: the new [(left, right)],
    or the value returned. *)
Definition binarySearch_body (arr : list Z) (target : Z) (left right : Z)
  : outcome (Z * Z + Z) :=
  if left <=? right then
    let mid := wrap (left + wrap (right - left) ÷ 2) in
    v ← vget arr mid;
    if v =? target then Ret (inr mid)
    else
      v' ← vget arr mid;
      if v' <? target then Ret (inl (wrap (mid + 1), right))
      else Ret (inl (left, wrap (mid - 1)))
  else Ret (inr (-1)).

Fixpoint binarySearch_loop (fuel : nat) (arr : list Z) (target : Z)
    (left right : Z) : outcome Z :=
  match fuel with
  | O => OutOfFuel
  | S fuel =>
      r ← binarySearch_body arr target left right;
      match r with
      | inl (left', right') => binarySearch_loop fuel arr target left' right'
      | inr res => Ret res
      end
  end.

Definition binarySearch_fuel (fuel : nat) (arr : list Z) (target : Z)
  : outcome Z :=
  let left := 0 in
  let right := wrap (to_size_t (vsize arr - 1)) in
  binarySearch_loop fuel arr target left right.

Definition binarySearch (arr : list Z) (target : Z) : outcome Z :=
  binarySearch_fuel (S (length arr)) arr target.

(** ** algorithms_clone.cpp *)

(** The inner [for] loop of [sortArray], entered at [j] with the current
    value of [swapped]. *)
Fixpoint sortArray_inner (fuel : nat) (len i j : Z) (data : list Z)
    (swapped : bool) : outcome (list Z * bool) :=
  match fuel with
  | O => OutOfFuel
  | S fuel =>
      if j <? wrap (wrap (len - i) - 1) then
        a ← vget data j;
        b ← vget data (wrap (j + 1));
        if a >? b then
          temp ← vget data j;
          x ← vget data (wrap (j + 1));
          data1 ← vset data j x;
          data2 ← vset data1 (wrap (j + 1)) temp;
          sortArray_inner fuel len i (wrap (j + 1)) data2 true
        else sortArray_inner fuel len i (wrap (j + 1)) data swapped
      else Ret (data, swapped)
  end.

(** The outer [for] loop of [sortArray], entered at [i]. *)
Fixpoint sortArray_outer (fuel : nat) (len i : Z) (data : list Z)
  : outcome (list Z) :=
  match fuel with
  | O => OutOfFuel
  | S fuel =>
      if i <? wrap (len - 1) then
        '(data1, swapped) ← sortArray_inner fuel len i 0 data false;
        if negb swapped then Ret data1
        else sortArray_outer fuel len (wrap (i + 1)) data1
      else Ret data
  end.

Definition sortArray_fuel (fuel : nat) (data : list Z) : outcome (list Z) :=
  let len := wrap (vsize data) in
  sortArray_outer fuel len 0 data.

Definition sortArray (data : list Z) : outcome (list Z) :=
  sortArray_fuel (S (length data)) data.

Definition findElement_body (list : list Z) (key : Z) (low high : Z)
  : outcome (Z * Z + Z) :=
  if low <=? high then
    let mid := wrap (low + wrap (high - low) ÷ 2) in
    v ← vget list mid;
    if v =? key then Ret (inr mid)
    else
      v' ← vget list mid;
      if v' <? key then Ret (inl (wrap (mid + 1), high))
      else Ret (inl (low, wrap (mid - 1)))
  else Ret (inr (-1)).

Fixpoint findElement_loop (fuel : nat) (list : list Z) (key : Z)
    (low high : Z) : outcome Z :=
  match fuel with
  | O => OutOfFuel
  | S fuel =>
      r ← findElement_body list key low high;
      match r with
      | inl (low', high') => findElement_loop fuel list key low' high'
      | inr res => Ret res
      end
  end.

Definition findElement_fuel (fuel : nat) (list : list Z) (key : Z)
  : outcome Z :=
  let low := 0 in
  let high := wrap (to_size_t (vsize list - 1)) in
  findElement_loop fuel list key low high.

Definition findElement (list : list Z) (key : Z) : outcome Z :=
  findElement_fuel (S (length list)) list key.

(** ** Pass logs

    The same loops with a ghost log: one entry per inner pass performed,
    [true] when the pass exchanged at least one pair. In [sortArray] the
    entry is the value of [swapped] when the pass ends; [bubbleSort] has no
    such variable, the flag is ghost state there. *)

Fixpoint bubbleSort_inner_traced (fuel : nat) (n i j : Z) (arr : list Z)
    (exchanged : bool) : outcome (list Z * bool) :=
  match fuel with
  | O => OutOfFuel
  | S fuel =>
      if j <? wrap (wrap (n - i) - 1) then
        a ← vget arr j;
        b ← vget arr (wrap (j + 1));
        if a >? b then
          arr1 ← vswap arr j (wrap (j + 1));
          bubbleSort_inner_traced fuel n i (wrap (j + 1)) arr1 true
        else bubbleSort_inner_traced fuel n i (wrap (j + 1)) arr exchanged
      else Ret (arr, exchanged)
  end.

Fixpoint bubbleSort_outer_traced (fuel : nat) (n i : Z) (arr : list Z)
    (log : list bool) : outcome (list Z * list bool) :=
  match fuel with
  | O => OutOfFuel
  | S fuel =>
      if i <? wrap (n - 1) then
        '(arr1, exchanged) ← bubbleSort_inner_traced fuel n i 0 arr false;
        bubbleSort_outer_traced fuel n (wrap (i + 1)) arr1 (log ++ [exchanged])
      else Ret (arr, log)
  end.

Definition bubbleSort_traced (arr : list Z) : outcome (list Z * list bool) :=
  bubbleSort_outer_traced (S (length arr)) (wrap (vsize arr)) 0 arr [].

Fixpoint sortArray_outer_traced (fuel : nat) (len i : Z) (data : list Z)
    (log : list bool) : outcome (list Z * list bool) :=
  match fuel with
  | O => OutOfFuel
  | S fuel =>
      if i <? wrap (len - 1) then
        '(data1, swapped) ← sortArray_inner fuel len i 0 data false;
        if negb swapped then Ret (data1, log ++ [swapped])
        else sortArray_outer_traced fuel len (wrap (i + 1)) data1
               (log ++ [swapped])
      else Ret (data, log)
  end.

Definition sortArray_traced (data : list Z) : outcome (list Z * list bool) :=
  sortArray_outer_traced (S (length data)) (wrap (vsize data)) 0 data [].

(** A log shows the early exit when a pass without exchange is always the
    last pass performed. *)
Definition early_exit (log : list bool) : Prop :=
  ∀ k : nat, log !! k = Some false → S k = length log.

(** ** States visited by the search loop *)

(** [(left, right)] pairs with which the loop condition is evaluated. *)
Inductive binarySearch_visits (arr : list Z) (target : Z) : Z → Z → Prop :=
  | visits_entry :
      binarySearch_visits arr target 0 (wrap (to_size_t (vsize arr - 1)))
  | visits_round left right left' right' :
      binarySearch_visits arr target left right →
      binarySearch_body arr target left right = Ret (inl (left', right')) →
      binarySearch_visits arr target left' right'.

Inductive findElement_visits (list : list Z) (key : Z) : Z → Z → Prop :=
  | find_visits_entry :
      findElement_visits list key 0 (wrap (to_size_t (vsize list - 1)))
  | find_visits_round low high low' high' :
      findElement_visits list key low high →
      findElement_body list key low high = Ret (inl (low', high')) →
      findElement_visits list key low' high'.

(** ** Properties of sequences *)

(** Every adjacent pair is in ascending order. *)
Definition sorted (arr : list Z) : Prop :=
  ∀ (i : nat) (x y : Z), arr !! i = Some x → arr !! S i = Some y → x ≤ y.

(** The adjacent pairs [(k, k+1)] with [k < b] are in ascending order. *)
Definition ordered_upto (b : nat) (arr : list Z) : Prop :=
  ∀ (k : nat) (x y : Z),
    (k < b)%nat → arr !! k = Some x → arr !! S k = Some y → x ≤ y.

(** The executable check of [sorted]. *)
Fixpoint sortedb (arr : list Z) : bool :=
  match arr with
  | x :: (y :: _) as rest => (x <=? y) && sortedb rest
  | _ => true
  end.

(** A vector of [n] zeros. *)
Definition zeros (n : Z) : list Z := replicate (Z.to_nat n) 0.

(** The number of elements can be held in an [int]. *)
Definition fits_int (arr : list Z) : Prop := vsize arr ≤ INT_MAX.

(** ** The passes as functions on lists

    What one compare-and-exchange, one inner pass and the sequence of all
    passes compute, over unbounded indices. The loops of the source are
    shown to compute these. *)

Definition exchange_step (k : nat) (arr : list Z) : list Z :=
  match arr !! k, arr !! S k with
  | Some a, Some b => if a >? b then <[S k := a]> (<[k := b]> arr) else arr
  | _, _ => arr
  end.

Definition exchange_needed (k : nat) (arr : list Z) : bool :=
  match arr !! k, arr !! S k with
  | Some a, Some b => a >? b
  | _, _ => false
  end.

(** [cnt] steps at [j], [j+1], ... *)
Fixpoint exchange_pass (cnt j : nat) (arr : list Z) : list Z :=
  match cnt with
  | O => arr
  | S cnt => exchange_pass cnt (S j) (exchange_step j arr)
  end.

Fixpoint exchange_pass_swapped (cnt j : nat) (arr : list Z) : bool :=
  match cnt with
  | O => false
  | S cnt =>
      exchange_needed j arr
      || exchange_pass_swapped cnt (S j) (exchange_step j arr)
  end.

(** Passes of [b], [b-1], ..., [1] steps. *)
Fixpoint exchange_passes (b : nat) (arr : list Z) : list Z :=
  match b with
  | O => arr
  | S b' => exchange_passes b' (exchange_pass b 0 arr)
  end.

(** The log of the passes when the first pass without exchange is the last. *)
Fixpoint exchange_log (b : nat) (arr : list Z) : list bool :=
  match b with
  | O => []
  | S b' =>
      if exchange_pass_swapped b 0 arr
      then true :: exchange_log b' (exchange_pass b 0 arr)
      else [false]
  end.

(** The positions [b+1 .. last] hold values that are at least every value
    before them: these positions are settled. *)
Definition settled_above (b last : nat) (arr : list Z) : Prop :=
  ∀ (p q : nat) (x y : Z),
    (p ≤ q)%nat → (b < q)%nat → (q ≤ last)%nat →
    arr !! p = Some x → arr !! q = Some y → x ≤ y.

(** The number of passes [bubbleSort] makes over a vector of [sz] elements. *)
Definition pass_count (sz : Z) : nat := Z.to_nat (wrap (wrap sz - 1)).

(** ** Comparison counts

    The loops of the two sorts with a ghost counter of the comparisons
    [arr[j] > arr[j + 1]] made. *)

Fixpoint bubbleSort_inner_counted (fuel : nat) (n i j : Z) (arr : list Z)
    (cmp : nat) : outcome (list Z * nat) :=
  match fuel with
  | O => OutOfFuel
  | S fuel =>
      if j <? wrap (wrap (n - i) - 1) then
        a ← vget arr j;
        b ← vget arr (wrap (j + 1));
        arr1 ← (if a >? b then vswap arr j (wrap (j + 1)) else Ret arr);
        bubbleSort_inner_counted fuel n i (wrap (j + 1)) arr1 (S cmp)
      else Ret (arr, cmp)
  end.

Fixpoint bubbleSort_outer_counted (fuel : nat) (n i : Z) (arr : list Z)
    (cmp : nat) : outcome (list Z * nat) :=
  match fuel with
  | O => OutOfFuel
  | S fuel =>
      if i <? wrap (n - 1) then
        '(arr1, cmp1) ← bubbleSort_inner_counted fuel n i 0 arr cmp;
        bubbleSort_outer_counted fuel n (wrap (i + 1)) arr1 cmp1
      else Ret (arr, cmp)
  end.

Definition bubbleSort_counted (arr : list Z) : outcome (list Z * nat) :=
  bubbleSort_outer_counted (S (length arr)) (wrap (vsize arr)) 0 arr 0.

Fixpoint sortArray_inner_counted (fuel : nat) (len i j : Z) (data : list Z)
    (swapped : bool) (cmp : nat) : outcome (list Z * bool * nat) :=
  match fuel with
  | O => OutOfFuel
  | S fuel =>
      if j <? wrap (wrap (len - i) - 1) then
        a ← vget data j;
        b ← vget data (wrap (j + 1));
        if a >? b then
          temp ← vget data j;
          x ← vget data (wrap (j + 1));
          data1 ← vset data j x;
          data2 ← vset data1 (wrap (j + 1)) temp;
          sortArray_inner_counted fuel len i (wrap (j + 1)) data2 true (S cmp)
        else
          sortArray_inner_counted fuel len i (wrap (j + 1)) data swapped
            (S cmp)
      else Ret (data, swapped, cmp)
  end.

Fixpoint sortArray_outer_counted (fuel : nat) (len i : Z) (data : list Z)
    (cmp : nat) : outcome (list Z * nat) :=
  match fuel with
  | O => OutOfFuel
  | S fuel =>
      if i <? wrap (len - 1) then
        '(data1, swapped, cmp1) ←
          sortArray_inner_counted fuel len i 0 data false cmp;
        if negb swapped then Ret (data1, cmp1)
        else sortArray_outer_counted fuel len (wrap (i + 1)) data1 cmp1
      else Ret (data, cmp)
  end.

Definition sortArray_counted (data : list Z) : outcome (list Z * nat) :=
  sortArray_outer_counted (S (length data)) (wrap (vsize data)) 0 data 0.

(** [b + (b-1) + ... + 1]. *)
Fixpoint triangle (b : nat) : nat :=
  match b with
  | O => O
  | S b' => (b + triangle b')%nat
  end.

(** The comparisons of the passes of [b], [b-1], ... steps when the first
    pass without exchange is the last. *)
Fixpoint exchange_comparisons (b : nat) (arr : list Z) : nat :=
  match b with
  | O => O
  | S b' =>
      if exchange_pass_swapped b 0 arr
      then (b + exchange_comparisons b' (exchange_pass b 0 arr))%nat
      else b
  end.

(** Every adjacent pair is in strictly ascending order. *)
Definition strictly_sorted (arr : list Z) : Prop :=
  ∀ (i : nat) (x y : Z), arr !! i = Some x → arr !! S i = Some y → x < y.

Fixpoint strictly_sortedb (arr : list Z) : bool :=
  match arr with
  | x :: (y :: _) as rest => (x <? y) && strictly_sortedb rest
  | _ => true
  end.

(** ** Sizes the sorts are defined on

    With [n = INT_MIN] the [n - 1] of the outer loops overflows, which the
    source leaves undefined; the loops above take the wrapped value there.
    It is the one overflow the sorts can meet, and it is met only when the
    size is [2^31] modulo [2^32]. The properties of the sorts are stated for
    the other sizes, which include every size up to [INT_MAX]. *)
Definition no_int_overflow (arr : list Z) : Prop :=
  wrap (vsize arr) ≠ INT_MIN.

(** ** Exchange logs of [sortArray]

    The loops of [sortArray] with two pieces of ghost state: the number of
    exchanges a pass made, and a log with one entry per pass performed,
    holding the value of [swapped] when the pass ends and that number. *)

Fixpoint sortArray_inner_logged (fuel : nat) (len i j : Z) (data : list Z)
    (swapped : bool) (exchanges : nat) : outcome (list Z * bool * nat) :=
  match fuel with
  | O => OutOfFuel
  | S fuel =>
      if j <? wrap (wrap (len - i) - 1) then
        a ← vget data j;
        b ← vget data (wrap (j + 1));
        if a >? b then
          temp ← vget data j;
          x ← vget data (wrap (j + 1));
          data1 ← vset data j x;
          data2 ← vset data1 (wrap (j + 1)) temp;
          sortArray_inner_logged fuel len i (wrap (j + 1)) data2 true
            (S exchanges)
        else
          sortArray_inner_logged fuel len i (wrap (j + 1)) data swapped
            exchanges
      else Ret (data, swapped, exchanges)
  end.

Fixpoint sortArray_outer_logged (fuel : nat) (len i : Z) (data : list Z)
    (log : list (bool * nat)) : outcome (list Z * list (bool * nat)) :=
  match fuel with
  | O => OutOfFuel
  | S fuel =>
      if i <? wrap (len - 1) then
        '(data1, swapped, exchanges) ←
          sortArray_inner_logged fuel len i 0 data false 0;
        if negb swapped then Ret (data1, log ++ [(swapped, exchanges)])
        else sortArray_outer_logged fuel len (wrap (i + 1)) data1
               (log ++ [(swapped, exchanges)])
      else Ret (data, log)
  end.

Definition sortArray_logged (data : list Z)
  : outcome (list Z * list (bool * nat)) :=
  sortArray_outer_logged (S (length data)) (wrap (vsize data)) 0 data [].

(** The exchanges of a pass of [cnt] steps from [j]. *)
Fixpoint exchange_pass_exchanges (cnt j : nat) (arr : list Z) : nat :=
  match cnt with
  | O => O
  | S cnt =>
      ((if exchange_needed j arr then 1 else 0)
       + exchange_pass_exchanges cnt (S j) (exchange_step j arr))%nat
  end.

(** The log of the passes when the first pass without exchange is the
    last. *)
Fixpoint exchange_log_counts (b : nat) (arr : list Z) : list (bool * nat) :=
  match b with
  | O => []
  | S b' =>
      if exchange_pass_swapped b 0 arr
      then (true, exchange_pass_exchanges b 0 arr)
           :: exchange_log_counts b' (exchange_pass b 0 arr)
      else [(false, exchange_pass_exchanges b 0 arr)]
  end.

(** ** Reads of the searches

    The loops of the two searches with a ghost log of the element reads:
    one entry [(left, right, mid)] for each evaluation of [arr[mid]], in the
    order of the reads. The log is returned whatever the outcome. *)

Fixpoint binarySearch_loop_traced (fuel : nat) (arr : list Z) (target : Z)
    (left right : Z) (reads : list (Z * Z * Z))
  : list (Z * Z * Z) * outcome Z :=
  match fuel with
  | O => (reads, OutOfFuel)
  | S fuel =>
      if left <=? right then
        let mid := wrap (left + wrap (right - left) ÷ 2) in
        let reads1 := reads ++ [(left, right, mid)] in
        match vget arr mid with
        | Ret v =>
            if v =? target then (reads1, Ret mid)
            else
              let reads2 := reads1 ++ [(left, right, mid)] in
              match vget arr mid with
              | Ret v' =>
                  if v' <? target
                  then binarySearch_loop_traced fuel arr target
                         (wrap (mid + 1)) right reads2
                  else binarySearch_loop_traced fuel arr target
                         left (wrap (mid - 1)) reads2
              | Fault => (reads2, Fault)
              | OutOfFuel => (reads2, OutOfFuel)
              end
        | Fault => (reads1, Fault)
        | OutOfFuel => (reads1, OutOfFuel)
        end
      else (reads, Ret (-1))
  end.

Definition binarySearch_traced (arr : list Z) (target : Z)
  : list (Z * Z * Z) * outcome Z :=
  let left := 0 in
  let right := wrap (to_size_t (vsize arr - 1)) in
  binarySearch_loop_traced (S (length arr)) arr target left right [].

Fixpoint findElement_loop_traced (fuel : nat) (list : list Z) (key : Z)
    (low high : Z) (reads : Datatypes.list (Z * Z * Z))
  : Datatypes.list (Z * Z * Z) * outcome Z :=
  match fuel with
  | O => (reads, OutOfFuel)
  | S fuel =>
      if low <=? high then
        let mid := wrap (low + wrap (high - low) ÷ 2) in
        let reads1 := reads ++ [(low, high, mid)] in
        match vget list mid with
        | Ret v =>
            if v =? key then (reads1, Ret mid)
            else
              let reads2 := reads1 ++ [(low, high, mid)] in
              match vget list mid with
              | Ret v' =>
                  if v' <? key
                  then findElement_loop_traced fuel list key
                         (wrap (mid + 1)) high reads2
                  else findElement_loop_traced fuel list key
                         low (wrap (mid - 1)) reads2
              | Fault => (reads2, Fault)
              | OutOfFuel => (reads2, OutOfFuel)
              end
        | Fault => (reads1, Fault)
        | OutOfFuel => (reads1, OutOfFuel)
        end
      else (reads, Ret (-1))
  end.

Definition findElement_traced (list : list Z) (key : Z)
  : Datatypes.list (Z * Z * Z) * outcome Z :=
  let low := 0 in
  let high := wrap (to_size_t (vsize list - 1)) in
  findElement_loop_traced (S (length list)) list key low high [].

(** What holds of a read [(left, right, mid)] inside the vector: the loop
    condition held, [right - left] and [left + (right - left) / 2] are in
    the range of [int], [mid] is that midpoint, between [left] and [right],
    and a valid index. *)
Definition read_in_bounds (arr : list Z) (read : Z * Z * Z) : Prop :=
  let '(l, r, mid) := read in
  l ≤ r
  ∧ INT_MIN ≤ r - l ≤ INT_MAX
  ∧ INT_MIN ≤ l + (r - l) ÷ 2 ≤ INT_MAX
  ∧ mid = l + (r - l) ÷ 2
  ∧ l ≤ mid ≤ r
  ∧ 0 ≤ mid < vsize arr.

(** ** The scenarios of the specification *)

Example scenario_sort_5 : bubbleSort [5; 3; 1; 4; 2] = Ret [1; 2; 3; 4; 5]
  ∧ sortArray [5; 3; 1; 4; 2] = Ret [1; 2; 3; 4; 5].
Proof. split; vm_compute; reflexivity. Qed.

Example scenario_sort_empty : bubbleSort [] = Ret [] ∧ sortArray [] = Ret [].
Proof. split; vm_compute; reflexivity. Qed.

Example scenario_sort_single : bubbleSort [1] = Ret [1] ∧ sortArray [1] = Ret [1].
Proof. split; vm_compute; reflexivity. Qed.

Example scenario_search_found : binarySearch [1; 2; 3; 4; 5] 4 = Ret 3
  ∧ findElement [1; 2; 3; 4; 5] 4 = Ret 3.
Proof. split; vm_compute; reflexivity. Qed.

Example scenario_search_absent : binarySearch [1; 2; 3; 4; 5] 9 = Ret (-1)
  ∧ findElement [1; 2; 3; 4; 5] 9 = Ret (-1).
Proof. split; vm_compute; reflexivity. Qed.

Example sort_duplicates : bubbleSort [3; 1; 2; 3; 1] = Ret [1; 1; 2; 3; 3]
  ∧ sortArray [3; 1; 2; 3; 1] = Ret [1; 1; 2; 3; 3].
Proof. split; vm_compute; reflexivity. Qed.

Example sortArray_log_sorted_input :
  sortArray_traced [1; 2; 3] = Ret ([1; 2; 3], [false]).
Proof. vm_compute; reflexivity. Qed.

Example sortArray_log_one_exchange :
  sortArray_traced [2; 1; 3; 4; 5] = Ret ([1; 2; 3; 4; 5], [true; false]).
Proof. vm_compute; reflexivity. Qed.

Example bubbleSort_log_one_exchange :
  bubbleSort_traced [2; 1; 3; 4; 5]
  = Ret ([1; 2; 3; 4; 5], [true; false; false; false]).
Proof. vm_compute; reflexivity. Qed.

Example search_unsorted : binarySearch [3; 1; 2] 3 = Ret (-1)
  ∧ binarySearch [3; 1; 2] 1 = Ret 1.
Proof. split; vm_compute; reflexivity. Qed.

Example access_outside : vget [1; 2; 3] 3 = Fault ∧ vget [1; 2; 3] (-1) = Fault
  ∧ vset [1; 2; 3] (-1) 0 = Fault.
Proof. repeat split; vm_compute; reflexivity. Qed.

Example scenario_search_empty : binarySearch [] 1 = Ret (-1)
  ∧ findElement [] 1 = Ret (-1).
Proof. split; vm_compute; reflexivity. Qed.

(** ** Machine arithmetic *)

Ltac int_arith :=
  unfold pass_count, fits_int, vsize, wrap, to_size_t, INT_MAX, INT_MIN in *;
  Z.to_euclidean_division_equations; lia.

Lemma wrap_range z : INT_MIN ≤ wrap z ≤ INT_MAX.
Proof. int_arith. Qed.

Lemma wrap_id z : INT_MIN ≤ z ≤ INT_MAX → wrap z = z.
Proof. int_arith. Qed.

Lemma to_size_t_id z : 0 ≤ z < 2 ^ 64 → to_size_t z = z.
Proof. int_arith. Qed.

(** Inside the outer loop the bound of the inner loop is the number of
    passes still to make, and it is a valid index. *)
Lemma inner_bound sz i :
  0 ≤ sz → 0 ≤ i < wrap (wrap sz - 1) →
  wrap (wrap (wrap sz - i) - 1) = wrap (wrap sz - 1) - i
  ∧ wrap (wrap sz - 1) < sz
  ∧ wrap (i + 1) = i + 1.
Proof. int_arith. Qed.

Lemma pass_count_lt (arr : list Z) :
  arr ≠ [] → (pass_count (vsize arr) < length arr)%nat.
Proof.
  destruct arr as [|a arr]; [done|]. intros _.
  unfold vsize. simpl length. int_arith.
Qed.

Lemma pass_count_fits (arr : list Z) :
  fits_int arr → pass_count (vsize arr) = (length arr - 1)%nat.
Proof. int_arith. Qed.

(** ** Element accesses inside the vector *)

Lemma bind_Ret {A B} (a : A) (f : A → outcome B) : Ret a ≫= f = f a.
Proof. reflexivity. Qed.

Lemma vget_index (arr : list Z) j :
  0 ≤ j ≤ INT_MAX →
  vget arr j = match arr !! Z.to_nat j with Some v => Ret v | None => Fault end.
Proof.
  intros Hj. unfold vget. rewrite to_size_t_id by int_arith.
  destruct (Z.ltb_spec j (vsize arr)) as [Hlt|Hge]; [done|].
  rewrite lookup_ge_None_2; [done | unfold vsize in Hge; lia].
Qed.

Lemma vset_index (arr : list Z) j v :
  0 ≤ j ≤ INT_MAX → j < vsize arr →
  vset arr j v = Ret (<[Z.to_nat j := v]> arr).
Proof.
  intros Hj Hlt. unfold vset. rewrite to_size_t_id by int_arith.
  destruct (Z.ltb_spec j (vsize arr)); [done | lia].
Qed.

Lemma vsize_insert (arr : list Z) k v : vsize (<[k := v]> arr) = vsize arr.
Proof. unfold vsize. by rewrite length_insert. Qed.

Lemma lookup_index (arr : list Z) j :
  0 ≤ j < vsize arr → ∃ v, arr !! Z.to_nat j = Some v.
Proof.
  intros Hj. apply lookup_lt_is_Some. unfold vsize in Hj. lia.
Qed.

(** The two exchanges of the source, [std::swap] and the three assignments
    through [temp], write the same vector. *)
Lemma vswap_index (arr : list Z) j a b :
  0 ≤ j → j + 1 ≤ INT_MAX → j + 1 < vsize arr →
  arr !! Z.to_nat j = Some a → arr !! S (Z.to_nat j) = Some b →
  vswap arr j (wrap (j + 1))
  = Ret (<[S (Z.to_nat j) := a]> (<[Z.to_nat j := b]> arr)).
Proof.
  intros Hj Hmax Hlt Ha Hb. unfold vswap.
  rewrite (wrap_id (j + 1)) by int_arith.
  replace (Z.to_nat (j + 1)) with (S (Z.to_nat j)) in * by lia.
  rewrite !vget_index by int_arith.
  replace (Z.to_nat (j + 1)) with (S (Z.to_nat j)) by lia.
  rewrite Ha, Hb, !bind_Ret.
  rewrite vset_index by int_arith. rewrite bind_Ret.
  rewrite vset_index by (rewrite ?vsize_insert; int_arith).
  by replace (Z.to_nat (j + 1)) with (S (Z.to_nat j)) by lia.
Qed.

Lemma exchange_step_length k arr :
  length (exchange_step k arr) = length arr.
Proof.
  unfold exchange_step.
  destruct (arr !! k) as [a|]; [|done].
  destruct (arr !! S k) as [b|]; [|done].
  destruct (a >? b); [|done]. by rewrite !length_insert.
Qed.

Lemma exchange_pass_length cnt j arr :
  length (exchange_pass cnt j arr) = length arr.
Proof.
  revert j arr. induction cnt as [|cnt IH]; intros j arr; simpl; [done|].
  by rewrite IH, exchange_step_length.
Qed.

Lemma exchange_passes_length b arr :
  length (exchange_passes b arr) = length arr.
Proof.
  revert arr. induction b as [|b IH]; intros arr; [done|].
  cbn [exchange_passes]. by rewrite IH, exchange_pass_length.
Qed.

(** ** The loops of the source compute the passes *)

Section inner_loops.
Variables (n i : Z) (bound : Z).
Hypothesis Hbound : wrap (wrap (n - i) - 1) = bound.

Lemma bubbleSort_inner_pass fuel j arr :
  0 ≤ j ≤ bound → bound < vsize arr → bound - j < Z.of_nat fuel →
  bubbleSort_inner fuel n i j arr
  = Ret (exchange_pass (Z.to_nat (bound - j)) (Z.to_nat j) arr).
Proof.
  revert j arr. induction fuel as [|fuel IH]; intros j arr Hj Hsz Hfuel;
    [lia|].
  pose proof (wrap_range (wrap (n - i) - 1)) as Hmax.
  cbn [bubbleSort_inner]. rewrite Hbound in *.
  destruct (Z.ltb_spec j bound) as [Hlt|Hge].
  - destruct (lookup_index arr j) as [a Ha]; [lia|].
    destruct (lookup_index arr (j + 1)) as [b Hb]; [lia|].
    replace (Z.to_nat (j + 1)) with (S (Z.to_nat j)) in Hb by lia.
    replace (Z.to_nat (bound - j)) with (S (Z.to_nat (bound - (j + 1))))
      by lia.
    cbn [exchange_pass].
    assert (Hw : wrap (j + 1) = j + 1) by (apply wrap_id; int_arith).
    rewrite (vget_index arr j) by int_arith. rewrite Ha, bind_Ret.
    rewrite Hw at 1. rewrite (vget_index arr (j + 1)) by int_arith.
    replace (Z.to_nat (j + 1)) with (S (Z.to_nat j)) by lia.
    rewrite Hb, bind_Ret.
    assert (Hstep : (if a >? b then vswap arr j (wrap (j + 1)) else Ret arr)
                    = Ret (exchange_step (Z.to_nat j) arr)).
    { unfold exchange_step. rewrite Ha, Hb.
      destruct (a >? b); [|done].
      apply vswap_index; [lia | int_arith | lia | done | done]. }
    rewrite Hstep, bind_Ret, Hw.
    rewrite IH; [| lia | | lia].
    + by replace (Z.to_nat (j + 1)) with (S (Z.to_nat j)) by lia.
    + unfold vsize in *. rewrite exchange_step_length. lia.
  - by replace (Z.to_nat (bound - j)) with O by lia.
Qed.

Lemma sortArray_inner_pass fuel j data swapped :
  0 ≤ j ≤ bound → bound < vsize data → bound - j < Z.of_nat fuel →
  sortArray_inner fuel n i j data swapped
  = Ret (exchange_pass (Z.to_nat (bound - j)) (Z.to_nat j) data,
         swapped
         || exchange_pass_swapped (Z.to_nat (bound - j)) (Z.to_nat j) data).
Proof.
  revert j data swapped.
  induction fuel as [|fuel IH]; intros j data swapped Hj Hsz Hfuel; [lia|].
  pose proof (wrap_range (wrap (n - i) - 1)) as Hmax.
  cbn [sortArray_inner]. rewrite Hbound in *.
  destruct (Z.ltb_spec j bound) as [Hlt|Hge].
  - destruct (lookup_index data j) as [a Ha]; [lia|].
    destruct (lookup_index data (j + 1)) as [b Hb]; [lia|].
    replace (Z.to_nat (j + 1)) with (S (Z.to_nat j)) in Hb by lia.
    replace (Z.to_nat (bound - j)) with (S (Z.to_nat (bound - (j + 1))))
      by lia.
    cbn [exchange_pass exchange_pass_swapped].
    assert (Hw : wrap (j + 1) = j + 1) by (apply wrap_id; int_arith).
    rewrite !Hw. rewrite !(vget_index data j) by int_arith.
    rewrite !(vget_index data (j + 1)) by int_arith.
    replace (Z.to_nat (j + 1)) with (S (Z.to_nat j)) by lia.
    rewrite Ha, Hb, !bind_Ret.
    unfold exchange_step, exchange_needed. rewrite Ha, Hb.
    destruct (a >? b).
    + rewrite vset_index by int_arith. rewrite bind_Ret.
      rewrite vset_index by (rewrite ?vsize_insert; int_arith).
      rewrite bind_Ret.
      replace (Z.to_nat (j + 1)) with (S (Z.to_nat j)) by lia.
      rewrite IH; [| lia | rewrite !vsize_insert; lia | lia].
      replace (Z.to_nat (j + 1)) with (S (Z.to_nat j)) by lia.
      by rewrite orb_true_r.
    + rewrite IH; [| lia | lia | lia].
      by replace (Z.to_nat (j + 1)) with (S (Z.to_nat j)) by lia.
  - replace (Z.to_nat (bound - j)) with O by lia.
    cbn [exchange_pass exchange_pass_swapped]. by rewrite orb_false_r.
Qed.

Lemma bubbleSort_inner_traced_pass fuel j arr exchanged :
  0 ≤ j ≤ bound → bound < vsize arr → bound - j < Z.of_nat fuel →
  bubbleSort_inner_traced fuel n i j arr exchanged
  = Ret (exchange_pass (Z.to_nat (bound - j)) (Z.to_nat j) arr,
         exchanged
         || exchange_pass_swapped (Z.to_nat (bound - j)) (Z.to_nat j) arr).
Proof.
  revert j arr exchanged.
  induction fuel as [|fuel IH]; intros j arr exchanged Hj Hsz Hfuel; [lia|].
  pose proof (wrap_range (wrap (n - i) - 1)) as Hmax.
  cbn [bubbleSort_inner_traced]. rewrite Hbound in *.
  destruct (Z.ltb_spec j bound) as [Hlt|Hge].
  - destruct (lookup_index arr j) as [a Ha]; [lia|].
    destruct (lookup_index arr (j + 1)) as [b Hb]; [lia|].
    replace (Z.to_nat (j + 1)) with (S (Z.to_nat j)) in Hb by lia.
    replace (Z.to_nat (bound - j)) with (S (Z.to_nat (bound - (j + 1))))
      by lia.
    cbn [exchange_pass exchange_pass_swapped].
    assert (Hw : wrap (j + 1) = j + 1) by (apply wrap_id; int_arith).
    rewrite (vget_index arr j) by int_arith. rewrite Ha, bind_Ret.
    rewrite Hw at 1. rewrite (vget_index arr (j + 1)) by int_arith.
    replace (Z.to_nat (j + 1)) with (S (Z.to_nat j)) by lia.
    rewrite Hb, bind_Ret.
    unfold exchange_step, exchange_needed. rewrite Ha, Hb.
    destruct (a >? b).
    + rewrite (vswap_index arr j a b) by (done || int_arith).
      rewrite bind_Ret, Hw.
      rewrite IH; [| lia | rewrite !vsize_insert; lia | lia].
      replace (Z.to_nat (j + 1)) with (S (Z.to_nat j)) by lia.
      by rewrite orb_true_r.
    + rewrite Hw. rewrite IH; [| lia | lia | lia].
      by replace (Z.to_nat (j + 1)) with (S (Z.to_nat j)) by lia.
  - replace (Z.to_nat (bound - j)) with O by lia.
    cbn [exchange_pass exchange_pass_swapped]. by rewrite orb_false_r.
Qed.
End inner_loops.

(** ** One compare-and-exchange *)

Lemma exchange_step_at k arr a b :
  arr !! k = Some a → arr !! S k = Some b →
  exchange_step k arr !! k = Some (Z.min a b)
  ∧ exchange_step k arr !! S k = Some (Z.max a b).
Proof.
  intros Ha Hb. unfold exchange_step. rewrite Ha, Hb.
  pose proof (lookup_lt_Some _ _ _ Ha) as Hk.
  pose proof (lookup_lt_Some _ _ _ Hb) as HSk.
  destruct (Z.gtb_spec a b) as [Hgt|Hle].
  - rewrite list_lookup_insert_ne by lia.
    rewrite !list_lookup_insert_eq by (rewrite ?length_insert; lia).
    by rewrite Z.min_r, Z.max_l by lia.
  - by rewrite Ha, Hb, Z.min_l, Z.max_r by lia.
Qed.

Lemma exchange_step_other k arr m :
  m ≠ k → m ≠ S k → exchange_step k arr !! m = arr !! m.
Proof.
  intros Hk HSk. unfold exchange_step.
  destruct (arr !! k) as [a|]; [|done].
  destruct (arr !! S k) as [b|]; [|done].
  destruct (a >? b); [|done].
  by rewrite !list_lookup_insert_ne by done.
Qed.

Lemma exchange_step_perm k arr : exchange_step k arr ≡ₚ arr.
Proof.
  unfold exchange_step.
  destruct (arr !! k) as [a|] eqn:Ha; [|done].
  destruct (arr !! S k) as [b|] eqn:Hb; [|done].
  destruct (a >? b); [|done].
  by apply Permutation_insert_swap.
Qed.

Lemma exchange_step_ordered k arr :
  (∀ x y, arr !! k = Some x → arr !! S k = Some y → x ≤ y) →
  exchange_step k arr = arr ∧ exchange_needed k arr = false.
Proof.
  intros Hord. unfold exchange_step, exchange_needed.
  destruct (arr !! k) as [a|]; [|done].
  destruct (arr !! S k) as [b|]; [|done].
  specialize (Hord a b eq_refl eq_refl).
  by destruct (Z.gtb_spec a b); [lia|].
Qed.

Lemma exchange_needed_false k arr :
  exchange_needed k arr = false →
  exchange_step k arr = arr
  ∧ ∀ x y, arr !! k = Some x → arr !! S k = Some y → x ≤ y.
Proof.
  unfold exchange_step, exchange_needed. intros Hn.
  destruct (arr !! k) as [a|]; [|done].
  destruct (arr !! S k) as [b|]; [|done].
  rewrite Hn. split; [done|]. intros x y [= <-] [= <-].
  by destruct (Z.gtb_spec a b); [|].
Qed.

(** ** One pass *)

Lemma exchange_pass_perm cnt j arr : exchange_pass cnt j arr ≡ₚ arr.
Proof.
  revert j arr. induction cnt as [|cnt IH]; intros j arr; simpl; [done|].
  by rewrite IH, exchange_step_perm.
Qed.

(** A pass of [cnt] steps from [j] leaves the positions outside
    [j .. j+cnt] alone. *)
Lemma exchange_pass_outside cnt j arr m :
  (m < j ∨ j + cnt < m)%nat → exchange_pass cnt j arr !! m = arr !! m.
Proof.
  revert j arr. induction cnt as [|cnt IH]; intros j arr Hm; simpl; [done|].
  rewrite IH by lia. apply exchange_step_other; lia.
Qed.

(** Every value found in [j .. j+cnt] after the pass was in [j .. j+cnt]
    before it. *)
Lemma exchange_pass_inside cnt j arr m x :
  (j + cnt < length arr)%nat → (j ≤ m ≤ j + cnt)%nat →
  exchange_pass cnt j arr !! m = Some x →
  ∃ m', (j ≤ m' ≤ j + cnt)%nat ∧ arr !! m' = Some x.
Proof.
  revert j arr. induction cnt as [|cnt IH]; intros j arr Hlen Hm Hx; simpl in *.
  { exists m. split; [lia | done]. }
  destruct (lookup_lt_is_Some_2 arr j) as [a Ha]; [lia|].
  destruct (lookup_lt_is_Some_2 arr (S j)) as [b Hb]; [lia|].
  destruct (exchange_step_at j arr a b Ha Hb) as [Hmin Hmax].
  destruct (decide (m = j)) as [->|Hne].
  - rewrite exchange_pass_outside in Hx by lia.
    rewrite Hmin in Hx. injection Hx as <-.
    destruct (Z.min_spec a b) as [[_ ->]|[_ ->]];
      [exists j | exists (S j)]; split; (lia || done).
  - destruct (IH (S j) (exchange_step j arr)) as (m' & Hm' & Hx');
      [rewrite exchange_step_length; lia | lia | done |].
    destruct (decide (m' = S j)) as [->|Hne'].
    + rewrite Hmax in Hx'. injection Hx' as <-.
      destruct (Z.max_spec a b) as [[_ ->]|[_ ->]];
        [exists (S j) | exists j]; split; (lia || done).
    + rewrite exchange_step_other in Hx' by lia.
      exists m'. split; [lia | done].
Qed.

(** When the value at [j] is the largest of [0 .. j], the pass carries the
    largest value of [0 .. j+cnt] to position [j+cnt]. *)
Lemma exchange_pass_largest cnt j arr :
  (j + cnt < length arr)%nat →
  (∀ m x y, (m ≤ j)%nat → arr !! m = Some x → arr !! j = Some y → x ≤ y) →
  ∀ m x y, (m ≤ j + cnt)%nat →
    exchange_pass cnt j arr !! m = Some x →
    exchange_pass cnt j arr !! (j + cnt)%nat = Some y → x ≤ y.
Proof.
  revert j arr. induction cnt as [|cnt IH]; intros j arr Hlen Hj m x y Hm Hx Hy.
  { simpl in *. rewrite Nat.add_0_r in *. eauto. }
  cbn [exchange_pass] in *.
  replace (j + S cnt)%nat with (S j + cnt)%nat in * by lia.
  destruct (lookup_lt_is_Some_2 arr j) as [a Ha]; [lia|].
  destruct (lookup_lt_is_Some_2 arr (S j)) as [b Hb]; [lia|].
  destruct (exchange_step_at j arr a b Ha Hb) as [Hmin Hmax].
  apply (IH (S j) (exchange_step j arr)) with (m := m);
    [rewrite exchange_step_length; lia | | done | done | done].
  intros m' x' y' Hm' Hx' Hy'. rewrite Hmax in Hy'. injection Hy' as <-.
  destruct (decide (m' = S j)) as [->|Hne1].
  { rewrite Hmax in Hx'. injection Hx' as <-. lia. }
  destruct (decide (m' = j)) as [->|Hne2].
  { rewrite Hmin in Hx'. injection Hx' as <-. lia. }
  rewrite exchange_step_other in Hx' by lia.
  specialize (Hj m' x' a ltac:(lia) Hx' Ha). lia.
Qed.

(** A pass over pairs that are all in order exchanges nothing. *)
Lemma exchange_pass_ordered b cnt j arr :
  ordered_upto b arr → (j + cnt ≤ b)%nat →
  exchange_pass cnt j arr = arr ∧ exchange_pass_swapped cnt j arr = false.
Proof.
  intros Hord. revert j.
  induction cnt as [|cnt IH]; intros j Hle; simpl; [done|].
  destruct (exchange_step_ordered j arr) as [-> ->].
  { intros x y. apply Hord. lia. }
  apply IH. lia.
Qed.

(** A pass that exchanged nothing went over pairs that are all in order. *)
Lemma exchange_pass_not_swapped cnt j arr :
  exchange_pass_swapped cnt j arr = false →
  exchange_pass cnt j arr = arr
  ∧ ∀ k x y, (j ≤ k < j + cnt)%nat →
      arr !! k = Some x → arr !! S k = Some y → x ≤ y.
Proof.
  revert j. induction cnt as [|cnt IH]; intros j Hsw; simpl in *.
  { split; [done|]. intros; lia. }
  apply orb_false_iff in Hsw as [Hn Hsw].
  destruct (exchange_needed_false j arr Hn) as [Hstep Hj].
  rewrite Hstep in *. destruct (IH (S j) Hsw) as [-> Hrest].
  split; [done|]. intros k x y Hk.
  destruct (decide (k = j)) as [->|]; [apply Hj | apply Hrest; lia].
Qed.

(** ** All passes *)

Lemma exchange_passes_perm b arr : exchange_passes b arr ≡ₚ arr.
Proof.
  revert arr. induction b as [|b IH]; intros arr; [done|].
  cbn [exchange_passes]. by rewrite IH, exchange_pass_perm.
Qed.

Lemma ordered_upto_le b b' arr :
  (b' ≤ b)%nat → ordered_upto b arr → ordered_upto b' arr.
Proof. intros Hle Hord k x y Hk. apply Hord. lia. Qed.

Lemma exchange_passes_ordered b arr :
  ordered_upto b arr → exchange_passes b arr = arr.
Proof.
  induction b as [|b IH]; intros Hord; [done|].
  cbn [exchange_passes].
  destruct (exchange_pass_ordered (S b) (S b) 0 arr Hord) as [-> _]; [lia|].
  apply IH. by apply ordered_upto_le with (S b); [lia|].
Qed.

(** The pass of [b] steps settles position [b]. *)
Lemma exchange_pass_settles b last arr :
  (1 ≤ b)%nat → (b ≤ last)%nat → (last < length arr)%nat →
  settled_above b last arr →
  settled_above (b - 1) last (exchange_pass b 0 arr).
Proof.
  intros Hb Hlast Hlen Hset p q x y Hpq Hq Hql Hx Hy.
  destruct (decide (q = b)) as [->|Hne].
  - apply (exchange_pass_largest b 0 arr) with (m := p); [lia | | lia | done..].
    intros m x' y' Hm Hx' Hy'. assert (m = 0)%nat as -> by lia. naive_solver.
  - rewrite exchange_pass_outside in Hy by lia.
    destruct (decide (p ≤ b)%nat) as [Hp|Hp].
    + destruct (exchange_pass_inside b 0 arr p x) as (m' & Hm' & Hx');
        [lia | lia | done |].
      apply (Hset m' q); (lia || done).
    + rewrite exchange_pass_outside in Hx by lia.
      apply (Hset p q); (lia || done).
Qed.

Lemma exchange_passes_settles b last arr :
  (b ≤ last)%nat → (last < length arr)%nat →
  settled_above b last arr → settled_above 0 last (exchange_passes b arr).
Proof.
  revert arr. induction b as [|b IH]; intros arr Hlast Hlen Hset; [done|].
  cbn [exchange_passes]. apply IH; [lia | by rewrite exchange_pass_length |].
  replace b with (S b - 1)%nat at 1 by lia.
  apply exchange_pass_settles; (lia || done).
Qed.

(** After the passes of [b], [b-1], ..., [1] steps the first [b+1] elements
    are in ascending order. *)
Lemma exchange_passes_result_ordered b arr :
  (b < length arr)%nat → ordered_upto b (exchange_passes b arr).
Proof.
  intros Hlen k x y Hk Hx Hy.
  apply (exchange_passes_settles b b arr) with (p := k) (q := S k);
    [lia | done | | lia | lia | lia | done | done].
  intros p q x' y' ? ? ?. lia.
Qed.

Lemma exchange_log_early_exit b arr : early_exit (exchange_log b arr).
Proof.
  revert arr. induction b as [|b IH]; intros arr k Hk; [done|].
  cbn [exchange_log] in *.
  destruct (exchange_pass_swapped (S b) 0 arr).
  - destruct k as [|k]; [done|]. simpl in *. f_equal. by apply IH.
  - destruct k as [|k]; [done|]. by destruct k.
Qed.

(** ** The outer loops *)

Lemma vsize_exchange_pass cnt j arr :
  vsize (exchange_pass cnt j arr) = vsize arr.
Proof. unfold vsize. by rewrite exchange_pass_length. Qed.

Lemma bubbleSort_outer_passes fuel i arr :
  0 ≤ i →
  Z.max (wrap (wrap (vsize arr) - 1) - i + 1) 0 < Z.of_nat fuel →
  bubbleSort_outer fuel (wrap (vsize arr)) i arr
  = Ret (exchange_passes (Z.to_nat (wrap (wrap (vsize arr) - 1) - i)) arr).
Proof.
  revert i arr. induction fuel as [|fuel IH]; intros i arr Hi Hfuel; [lia|].
  cbn [bubbleSort_outer].
  destruct (Z.ltb_spec i (wrap (wrap (vsize arr) - 1))) as [Hlt|Hge].
  - destruct (inner_bound (vsize arr) i) as (Hb & Hsz & Hw);
      [unfold vsize; lia | lia |].
    rewrite (bubbleSort_inner_pass _ _ _ Hb) by lia.
    rewrite bind_Ret, Hw, Z.sub_0_r. change (Z.to_nat 0) with O.
    rewrite <- (vsize_exchange_pass
      (Z.to_nat (wrap (wrap (vsize arr) - 1) - i)) 0 arr) at 1.
    rewrite IH by (rewrite ?vsize_exchange_pass; lia).
    rewrite vsize_exchange_pass.
    replace (Z.to_nat (wrap (wrap (vsize arr) - 1) - i))
      with (S (Z.to_nat (wrap (wrap (vsize arr) - 1) - (i + 1)))) by lia.
    reflexivity.
  - by replace (Z.to_nat (wrap (wrap (vsize arr) - 1) - i)) with O by lia.
Qed.

Lemma sortArray_outer_passes fuel i data :
  0 ≤ i →
  Z.max (wrap (wrap (vsize data) - 1) - i + 1) 0 < Z.of_nat fuel →
  sortArray_outer fuel (wrap (vsize data)) i data
  = Ret (exchange_passes (Z.to_nat (wrap (wrap (vsize data) - 1) - i)) data).
Proof.
  revert i data. induction fuel as [|fuel IH]; intros i data Hi Hfuel; [lia|].
  cbn [sortArray_outer].
  destruct (Z.ltb_spec i (wrap (wrap (vsize data) - 1))) as [Hlt|Hge].
  - destruct (inner_bound (vsize data) i) as (Hb & Hsz & Hw);
      [unfold vsize; lia | lia |].
    rewrite (sortArray_inner_pass _ _ _ Hb) by lia.
    rewrite bind_Ret, Hw, Z.sub_0_r. change (Z.to_nat 0) with O.
    replace (Z.to_nat (wrap (wrap (vsize data) - 1) - i))
      with (S (Z.to_nat (wrap (wrap (vsize data) - 1) - (i + 1)))) by lia.
    set (b := Z.to_nat (wrap (wrap (vsize data) - 1) - (i + 1))).
    cbn [orb exchange_passes].
    destruct (exchange_pass_swapped (S b) 0 data) eqn:Hsw; cbn [negb].
    + rewrite <- (vsize_exchange_pass (S b) 0 data) at 1.
      rewrite IH by (rewrite ?vsize_exchange_pass; lia).
      by rewrite vsize_exchange_pass.
    + destruct (exchange_pass_not_swapped _ _ _ Hsw) as [Heq Hord].
      rewrite Heq. f_equal. symmetry. apply exchange_passes_ordered.
      intros k x y Hk. apply Hord. lia.
  - by replace (Z.to_nat (wrap (wrap (vsize data) - 1) - i)) with O by lia.
Qed.

Lemma default_fuel (arr : list Z) (fuel : nat) :
  (length arr < fuel)%nat →
  Z.max (wrap (wrap (vsize arr) - 1) - 0 + 1) 0 < Z.of_nat fuel.
Proof.
  intros Hfuel. destruct arr as [|a arr].
  - vm_compute vsize. int_arith.
  - pose proof (pass_count_lt (a :: arr) ltac:(done)). int_arith.
Qed.

Lemma bubbleSort_fuel_passes fuel arr :
  (length arr < fuel)%nat →
  bubbleSort_fuel fuel arr = Ret (exchange_passes (pass_count (vsize arr)) arr).
Proof.
  intros Hfuel. unfold bubbleSort_fuel.
  rewrite bubbleSort_outer_passes by (lia || by apply default_fuel).
  by rewrite Z.sub_0_r.
Qed.

Lemma sortArray_fuel_passes fuel data :
  (length data < fuel)%nat →
  sortArray_fuel fuel data
  = Ret (exchange_passes (pass_count (vsize data)) data).
Proof.
  intros Hfuel. unfold sortArray_fuel.
  rewrite sortArray_outer_passes by (lia || by apply default_fuel).
  by rewrite Z.sub_0_r.
Qed.

Lemma bubbleSort_passes arr :
  bubbleSort arr = Ret (exchange_passes (pass_count (vsize arr)) arr).
Proof. apply bubbleSort_fuel_passes. lia. Qed.

Lemma sortArray_passes data :
  sortArray data = Ret (exchange_passes (pass_count (vsize data)) data).
Proof. apply sortArray_fuel_passes. lia. Qed.

(** ** The pass logs *)

(** Dropping the log gives back the loops of the source. *)
Lemma bubbleSort_inner_erase fuel n i j arr exchanged :
  fst <$> bubbleSort_inner_traced fuel n i j arr exchanged
  = bubbleSort_inner fuel n i j arr.
Proof.
  revert j arr exchanged.
  induction fuel as [|fuel IH]; intros j arr exchanged; [done|].
  cbn [bubbleSort_inner_traced bubbleSort_inner].
  destruct (j <? _); [|done].
  destruct (vget arr j) as [a| |]; [|done..]. rewrite !bind_Ret.
  destruct (vget arr (wrap (j + 1))) as [b| |]; [|done..]. rewrite !bind_Ret.
  destruct (a >? b); [|by rewrite bind_Ret].
  destruct (vswap arr j (wrap (j + 1))) as [arr1| |]; [|done..].
  by rewrite !bind_Ret.
Qed.

Lemma bubbleSort_outer_erase fuel n i arr log :
  fst <$> bubbleSort_outer_traced fuel n i arr log
  = bubbleSort_outer fuel n i arr.
Proof.
  revert i arr log. induction fuel as [|fuel IH]; intros i arr log; [done|].
  cbn [bubbleSort_outer_traced bubbleSort_outer].
  destruct (i <? _); [|done].
  rewrite <- (bubbleSort_inner_erase fuel n i 0 arr false).
  destruct (bubbleSort_inner_traced fuel n i 0 arr false)
    as [[arr1 exchanged]| |]; [|done..].
  cbn [fmap outcome_fmap fst]. rewrite !bind_Ret. apply IH.
Qed.

Lemma bubbleSort_traced_erase arr :
  fst <$> bubbleSort_traced arr = bubbleSort arr.
Proof. apply bubbleSort_outer_erase. Qed.

Lemma sortArray_outer_erase fuel len i data log :
  fst <$> sortArray_outer_traced fuel len i data log
  = sortArray_outer fuel len i data.
Proof.
  revert i data log. induction fuel as [|fuel IH]; intros i data log; [done|].
  cbn [sortArray_outer_traced sortArray_outer].
  destruct (i <? _); [|done].
  destruct (sortArray_inner fuel len i 0 data false)
    as [[data1 swapped]| |]; [|done..].
  rewrite !bind_Ret. destruct (negb swapped); [done|]. apply IH.
Qed.

Lemma sortArray_traced_erase data :
  fst <$> sortArray_traced data = sortArray data.
Proof. apply sortArray_outer_erase. Qed.

Lemma sortArray_outer_traced_log fuel i data log :
  0 ≤ i →
  Z.max (wrap (wrap (vsize data) - 1) - i + 1) 0 < Z.of_nat fuel →
  sortArray_outer_traced fuel (wrap (vsize data)) i data log
  = Ret (exchange_passes (Z.to_nat (wrap (wrap (vsize data) - 1) - i)) data,
         log ++ exchange_log (Z.to_nat (wrap (wrap (vsize data) - 1) - i)) data).
Proof.
  revert i data log.
  induction fuel as [|fuel IH]; intros i data log Hi Hfuel; [lia|].
  cbn [sortArray_outer_traced].
  destruct (Z.ltb_spec i (wrap (wrap (vsize data) - 1))) as [Hlt|Hge].
  - destruct (inner_bound (vsize data) i) as (Hb & Hsz & Hw);
      [unfold vsize; lia | lia |].
    rewrite (sortArray_inner_pass _ _ _ Hb) by lia.
    rewrite bind_Ret, Hw, Z.sub_0_r. change (Z.to_nat 0) with O.
    replace (Z.to_nat (wrap (wrap (vsize data) - 1) - i))
      with (S (Z.to_nat (wrap (wrap (vsize data) - 1) - (i + 1)))) by lia.
    set (b := Z.to_nat (wrap (wrap (vsize data) - 1) - (i + 1))).
    cbn [orb exchange_passes exchange_log].
    destruct (exchange_pass_swapped (S b) 0 data) eqn:Hsw; cbn [negb].
    + rewrite <- (vsize_exchange_pass (S b) 0 data) at 1.
      rewrite IH by (rewrite ?vsize_exchange_pass; lia).
      rewrite vsize_exchange_pass. by rewrite <- app_assoc.
    + destruct (exchange_pass_not_swapped _ _ _ Hsw) as [Heq Hord].
      rewrite Heq. do 2 f_equal. symmetry. apply exchange_passes_ordered.
      intros k x y Hk. apply Hord. lia.
  - replace (Z.to_nat (wrap (wrap (vsize data) - 1) - i)) with O by lia.
    cbn [exchange_passes exchange_log]. by rewrite app_nil_r.
Qed.

Lemma bubbleSort_outer_traced_log fuel i arr log :
  0 ≤ i →
  Z.max (wrap (wrap (vsize arr) - 1) - i + 1) 0 < Z.of_nat fuel →
  ∃ log',
    bubbleSort_outer_traced fuel (wrap (vsize arr)) i arr log
    = Ret (exchange_passes (Z.to_nat (wrap (wrap (vsize arr) - 1) - i)) arr,
           log ++ log')
    ∧ length log' = Z.to_nat (wrap (wrap (vsize arr) - 1) - i).
Proof.
  revert i arr log.
  induction fuel as [|fuel IH]; intros i arr log Hi Hfuel; [lia|].
  cbn [bubbleSort_outer_traced].
  destruct (Z.ltb_spec i (wrap (wrap (vsize arr) - 1))) as [Hlt|Hge].
  - destruct (inner_bound (vsize arr) i) as (Hb & Hsz & Hw);
      [unfold vsize; lia | lia |].
    rewrite (bubbleSort_inner_traced_pass _ _ _ Hb) by lia.
    rewrite bind_Ret, Hw, Z.sub_0_r. change (Z.to_nat 0) with O.
    replace (Z.to_nat (wrap (wrap (vsize arr) - 1) - i))
      with (S (Z.to_nat (wrap (wrap (vsize arr) - 1) - (i + 1)))) by lia.
    set (b := Z.to_nat (wrap (wrap (vsize arr) - 1) - (i + 1))).
    cbn [orb exchange_passes].
    destruct (IH (i + 1) (exchange_pass (S b) 0 arr)
                (log ++ [exchange_pass_swapped (S b) 0 arr]))
      as (log' & Hrun & Hlen); [lia | rewrite vsize_exchange_pass; lia |].
    rewrite vsize_exchange_pass in Hrun, Hlen. fold b in Hrun, Hlen.
    exists (exchange_pass_swapped (S b) 0 arr :: log').
    rewrite Hrun, <- app_assoc. split; [done|]. simpl. lia.
  - replace (Z.to_nat (wrap (wrap (vsize arr) - 1) - i)) with O by lia.
    exists []. by rewrite app_nil_r.
Qed.

(** ** One round of the search loop *)

Lemma findElement_fuel_binarySearch_fuel fuel arr target :
  findElement_fuel fuel arr target = binarySearch_fuel fuel arr target.
Proof. reflexivity. Qed.

Lemma findElement_binarySearch arr target :
  findElement arr target = binarySearch arr target.
Proof. reflexivity. Qed.

Lemma findElement_visits_binarySearch_visits arr target l r :
  findElement_visits arr target l r ↔ binarySearch_visits arr target l r.
Proof.
  split; induction 1; try constructor; by econstructor.
Qed.

(** With [0 ≤ left ≤ right ≤ INT_MAX] and [right] inside the vector, the
    midpoint is computed without wrap-around, lies between [left] and
    [right], and is read inside the vector. *)
Lemma binarySearch_body_round arr target l r :
  0 ≤ l ≤ r → r ≤ INT_MAX → r < vsize arr →
  INT_MIN ≤ r - l ≤ INT_MAX
  ∧ INT_MIN ≤ l + (r - l) ÷ 2 ≤ INT_MAX
  ∧ wrap (l + wrap (r - l) ÷ 2) = l + (r - l) / 2
  ∧ l ≤ l + (r - l) / 2 ≤ r
  ∧ ∃ v, arr !! Z.to_nat (l + (r - l) / 2) = Some v
      ∧ binarySearch_body arr target l r
        = if v =? target then Ret (inr (l + (r - l) / 2))
          else if v <? target then Ret (inl (wrap (l + (r - l) / 2 + 1), r))
          else Ret (inl (l, l + (r - l) / 2 - 1)).
Proof.
  intros Hl Hr Hsz.
  assert (Hmid : wrap (l + wrap (r - l) ÷ 2) = l + (r - l) / 2) by int_arith.
  assert (Hin : l ≤ l + (r - l) / 2 ≤ r) by int_arith.
  split; [int_arith|]. split; [int_arith|]. split; [done|]. split; [done|].
  destruct (lookup_index arr (l + (r - l) / 2)) as [v Hv]; [lia|].
  exists v. split; [done|]. unfold binarySearch_body.
  destruct (Z.leb_spec l r); [|lia]. cbv zeta. rewrite Hmid.
  rewrite vget_index by int_arith. rewrite Hv, !bind_Ret.
  destruct (v =? target); [done|]. destruct (v <? target); [done|].
  do 3 f_equal. int_arith.
Qed.

Lemma binarySearch_body_exit arr target l r :
  r < l → binarySearch_body arr target l r = Ret (inr (-1)).
Proof. intros Hlt. unfold binarySearch_body. by destruct (Z.leb_spec l r); [lia|]. Qed.

Lemma entry_right arr :
  fits_int arr → wrap (to_size_t (vsize arr - 1)) = vsize arr - 1.
Proof. int_arith. Qed.

(** ** The search loop on vectors that fit [int] *)

Section search_fits.
Variables (arr : list Z) (target : Z).
Hypothesis Hfits : fits_int arr.

Lemma binarySearch_loop_result fuel l r :
  0 ≤ l → r < vsize arr → l ≤ r + 1 → r - l + 1 < Z.of_nat fuel →
  ∃ res, binarySearch_loop fuel arr target l r = Ret res
    ∧ (res = -1 ∨ l ≤ res ≤ r ∧ arr !! Z.to_nat res = Some target).
Proof.
  revert l r. induction fuel as [|fuel IH]; intros l r Hl Hr Hlr Hfuel; [lia|].
  cbn [binarySearch_loop].
  destruct (Z.le_gt_cases l r) as [Hle|Hgt].
  - destruct (binarySearch_body_round arr target l r)
      as (_ & _ & _ & Hmid & v & Hv & ->); [lia | int_arith | lia |].
    destruct (Z.eqb_spec v target) as [->|Hne].
    { rewrite bind_Ret. eexists. split; [done|]. right. split; [lia | done]. }
    destruct (v <? target); rewrite bind_Ret.
    + rewrite (wrap_id (l + (r - l) / 2 + 1)) by int_arith.
      destruct (IH (l + (r - l) / 2 + 1) r) as (res & -> & Hres);
        [lia..|].
      exists res. split; [done|]. destruct Hres as [?|[? ?]]; [by left|].
      right. split; [lia | done].
    + destruct (IH l (l + (r - l) / 2 - 1)) as (res & -> & Hres);
        [lia..|].
      exists res. split; [done|]. destruct Hres as [?|[? ?]]; [by left|].
      right. split; [lia | done].
  - rewrite binarySearch_body_exit by lia. rewrite bind_Ret.
    exists (-1). split; [done | by left].
Qed.

Lemma binarySearch_visits_range l r :
  binarySearch_visits arr target l r → 0 ≤ l ∧ r < vsize arr ∧ l ≤ r + 1.
Proof.
  induction 1 as [|l r l' r' _ IH Hbody].
  - rewrite entry_right by done. unfold vsize. lia.
  - destruct (Z.le_gt_cases l r) as [Hle|Hgt].
    + destruct (binarySearch_body_round arr target l r)
        as (_ & _ & _ & Hmid & v & Hv & Heq); [lia | int_arith | lia |].
      rewrite Heq in Hbody.
      destruct (v =? target); [done|].
      destruct (v <? target); injection Hbody as <- <-; [|lia].
      rewrite wrap_id by int_arith. lia.
    + by rewrite binarySearch_body_exit in Hbody by lia.
Qed.
End search_fits.

(** ** Ascending order *)

Lemma sorted_le arr (p q : nat) x y :
  sorted arr → (p ≤ q)%nat → arr !! p = Some x → arr !! q = Some y → x ≤ y.
Proof.
  intros Hs Hpq Hx. revert y.
  induction Hpq as [|q Hpq IH]; intros y Hy.
  - rewrite Hx in Hy. injection Hy as <-. lia.
  - destruct (lookup_lt_is_Some_2 arr q) as [z Hz].
    { apply lookup_lt_Some in Hy. lia. }
    specialize (IH z Hz). specialize (Hs q z y Hz Hy). lia.
Qed.

Lemma ordered_upto_sorted arr :
  ordered_upto (length arr - 1) arr → sorted arr.
Proof.
  intros Hord k x y Hx Hy. apply (Hord k); [|done..].
  apply lookup_lt_Some in Hy. lia.
Qed.

Section search_sorted.
Variables (arr : list Z) (target : Z).
Hypothesis Hsorted : sorted arr.

(** On a sorted vector the loop keeps an occurrence of the target between
    [left] and [right]; [left = mid + 1] then stays at or below that
    occurrence, so [right ≤ INT_MAX] is all the loop needs of the size. *)
Lemma binarySearch_loop_finds fuel l r :
  0 ≤ l → r ≤ INT_MAX → r < vsize arr → r - l + 1 < Z.of_nat fuel →
  (∃ k, l ≤ k ≤ r ∧ arr !! Z.to_nat k = Some target) →
  ∃ res, binarySearch_loop fuel arr target l r = Ret res
    ∧ l ≤ res ≤ r ∧ arr !! Z.to_nat res = Some target.
Proof.
  revert l r.
  induction fuel as [|fuel IH];
    intros l r Hl Hmax Hr Hfuel (k & Hk & Hkt); [lia|].
  cbn [binarySearch_loop].
  destruct (binarySearch_body_round arr target l r)
    as (_ & _ & _ & Hmid & v & Hv & ->); [lia | lia | lia |].
  destruct (Z.eqb_spec v target) as [->|Hne].
  { rewrite bind_Ret. eexists. split; [done|]. split; [lia | done]. }
  destruct (Z.ltb_spec v target) as [Hlt|Hge]; rewrite bind_Ret.
  - assert (Hkm : l + (r - l) / 2 < k).
    { destruct (Z.le_gt_cases k (l + (r - l) / 2)) as [Hkm|]; [|lia].
      pose proof (sorted_le arr (Z.to_nat k) (Z.to_nat (l + (r - l) / 2))
                    target v Hsorted ltac:(lia) Hkt Hv). lia. }
    rewrite (wrap_id (l + (r - l) / 2 + 1)) by int_arith.
    destruct (IH (l + (r - l) / 2 + 1) r) as (res & -> & Hres & Hrt);
      [lia.. | | ].
    + exists k. split; [lia | done].
    + exists res. split; [done|]. split; [lia | done].
  - destruct (IH l (l + (r - l) / 2 - 1)) as (res & -> & Hres & Hrt);
      [lia.. | | ].
    + exists k. split; [|done].
      destruct (Z.le_gt_cases (l + (r - l) / 2) k) as [Hkm|]; [|lia].
      pose proof (sorted_le arr (Z.to_nat (l + (r - l) / 2)) (Z.to_nat k)
                    v target Hsorted ltac:(lia) Hv Hkt). lia.
    + exists res. split; [done|]. split; [lia | done].
Qed.
End search_sorted.

(** ** Vectors too long for [int] *)

Section oversized.
Variable n : nat.

(** With [2^31] elements the last index is [INT_MAX]: a search for a
    value above every element moves [left] up to [INT_MAX], where
    [left = mid + 1] wraps to [INT_MIN], and the next midpoint is
    [INT_MIN]. *)
Hypothesis Hn : Z.of_nat n = 2 ^ 31.

Lemma oversized_vsize : vsize (replicate n 0) = 2 ^ 31.
Proof. unfold vsize. by rewrite length_replicate. Qed.

Lemma oversized_entry :
  wrap (to_size_t (vsize (replicate n 0) - 1)) = INT_MAX.
Proof. rewrite oversized_vsize. reflexivity. Qed.

Lemma oversized_round l :
  0 ≤ l ≤ INT_MAX →
  binarySearch_body (replicate n 0) 1 l INT_MAX
  = Ret (inl (wrap (l + (INT_MAX - l) / 2 + 1), INT_MAX)).
Proof.
  intros Hl.
  destruct (binarySearch_body_round (replicate n 0) 1 l INT_MAX)
    as (_ & _ & _ & Hmid & v & Hv & ->);
    [lia | lia | rewrite oversized_vsize; int_arith |].
  apply lookup_replicate in Hv as [-> _]. reflexivity.
Qed.

Lemma oversized_vget : vget (replicate n 0) INT_MIN = Fault.
Proof.
  unfold vget. rewrite oversized_vsize.
  by change (to_size_t INT_MIN <? 2 ^ 31) with false.
Qed.

Lemma oversized_last_round :
  binarySearch_body (replicate n 0) 1 INT_MIN INT_MAX = Fault.
Proof.
  unfold binarySearch_body.
  change (INT_MIN <=? INT_MAX) with true. cbv iota zeta.
  change (wrap (INT_MIN + wrap (INT_MAX - INT_MIN) ÷ 2)) with INT_MIN.
  by rewrite oversized_vget.
Qed.

Lemma oversized_loop fuel l :
  0 ≤ l ≤ INT_MAX → INT_MAX - l + 2 ≤ Z.of_nat fuel →
  binarySearch_loop fuel (replicate n 0) 1 l INT_MAX = Fault.
Proof.
  revert l. induction fuel as [|fuel IH]; intros l Hl Hfuel; [int_arith|].
  cbn [binarySearch_loop]. rewrite oversized_round, bind_Ret by done.
  destruct (decide (l = INT_MAX)) as [->|Hne].
  - change (wrap (INT_MAX + (INT_MAX - INT_MAX) / 2 + 1)) with INT_MIN.
    destruct fuel as [|fuel]; [int_arith|].
    cbn [binarySearch_loop]. by rewrite oversized_last_round.
  - rewrite wrap_id by int_arith. apply IH; int_arith.
Qed.

Lemma oversized_search :
  binarySearch_fuel (S n) (replicate n 0) 1 = Fault.
Proof.
  unfold binarySearch_fuel. rewrite oversized_entry.
  apply oversized_loop; int_arith.
Qed.

Lemma oversized_visits l :
  0 ≤ l ≤ INT_MAX →
  binarySearch_visits (replicate n 0) 1 l INT_MAX →
  binarySearch_visits (replicate n 0) 1 INT_MIN INT_MAX.
Proof.
  intros Hl. remember (Z.to_nat (INT_MAX - l)) as d eqn:Hd.
  revert l Hl Hd. induction (lt_wf d) as [d _ IH]. intros l Hl Hd Hv.
  pose proof (visits_round _ _ _ _ _ _ Hv (oversized_round l Hl)) as Hnext.
  destruct (decide (l = INT_MAX)) as [->|Hne]; [exact Hnext|].
  rewrite wrap_id in Hnext by int_arith.
  apply (IH (Z.to_nat (INT_MAX - (l + (INT_MAX - l) / 2 + 1))))
    with (l := l + (INT_MAX - l) / 2 + 1); [int_arith | int_arith | done | done].
Qed.

Lemma oversized_visits_wrapped :
  binarySearch_visits (replicate n 0) 1 INT_MIN INT_MAX.
Proof.
  apply (oversized_visits 0); [int_arith|].
  rewrite <- oversized_entry. constructor.
Qed.

Lemma oversized_loop_no_result fuel l res :
  0 ≤ l ≤ INT_MAX →
  binarySearch_loop fuel (replicate n 0) 1 l INT_MAX ≠ Ret res.
Proof.
  revert l. induction fuel as [|fuel IH]; intros l Hl; [done|].
  cbn [binarySearch_loop]. rewrite oversized_round, bind_Ret by done.
  destruct (decide (l = INT_MAX)) as [->|Hne].
  - change (wrap (INT_MAX + (INT_MAX - INT_MAX) / 2 + 1)) with INT_MIN.
    destruct fuel as [|fuel]; [done|].
    cbn [binarySearch_loop]. by rewrite oversized_last_round.
  - rewrite wrap_id by int_arith. apply IH; int_arith.
Qed.

Lemma oversized_binarySearch : binarySearch (replicate n 0) 1 = Fault.
Proof.
  unfold binarySearch. rewrite length_replicate. apply oversized_search.
Qed.

Lemma oversized_sorted : sorted (replicate n 0).
Proof.
  intros k x y Hx Hy.
  apply lookup_replicate in Hx as [-> _].
  apply lookup_replicate in Hy as [-> _]. lia.
Qed.

Lemma oversized_absent : 1 ∉ replicate n 0.
Proof. intros [? _]%elem_of_replicate. lia. Qed.
End oversized.

Section oversized_skipped.
Variable arr : list Z.

(** With more than [2^31] and at most [2^32] elements the size converts to
    a negative [int]: neither loop is entered. *)
Hypothesis Hn : 2 ^ 31 < vsize arr ≤ 2 ^ 32.

Lemma skipped_sort : bubbleSort arr = Ret arr ∧ sortArray arr = Ret arr.
Proof.
  rewrite bubbleSort_passes, sortArray_passes.
  by replace (pass_count (vsize arr)) with O by int_arith.
Qed.

Lemma skipped_search target : binarySearch arr target = Ret (-1).
Proof.
  unfold binarySearch, binarySearch_fuel. cbn [binarySearch_loop].
  rewrite binarySearch_body_exit; [done | int_arith].
Qed.
End oversized_skipped.

Lemma sortedb_sorted arr : sortedb arr = true → sorted arr.
Proof.
  induction arr as [|a [|b rest] IH]; intros Hb k x y Hx Hy.
  - done.
  - by destruct k.
  - cbn [sortedb] in Hb. apply andb_true_iff in Hb as [Hab Hrest].
    destruct k as [|k].
    + injection Hx as <-. injection Hy as <-. lia.
    + by apply (IH Hrest k).
Qed.

Lemma vsize_zeros n : 0 ≤ n → vsize (zeros n) = n.
Proof. intros Hn. unfold vsize, zeros. rewrite length_replicate. lia. Qed.

Lemma vsize_cons a arr : vsize (a :: arr) = vsize arr + 1.
Proof. unfold vsize. cbn [length]. lia. Qed.

Lemma descent_not_sorted a b arr : b < a → ¬ sorted (a :: b :: arr).
Proof. intros Hlt Hs. specialize (Hs O a b eq_refl eq_refl). lia. Qed.

(** The result of a search in a vector that fits [int]. *)
Lemma binarySearch_result (arr : list Z) (target : Z) :
  fits_int arr →
  ∃ r, binarySearch arr target = Ret r
       ∧ (r = -1 ∨ 0 ≤ r < vsize arr ∧ arr !! Z.to_nat r = Some target).
Proof.
  intros Hfits.
  unfold binarySearch, binarySearch_fuel. rewrite entry_right by done.
  destruct (binarySearch_loop_result arr target Hfits (S (length arr))
              0 (vsize arr - 1)) as (r & Hr & Hres);
    [unfold vsize; lia..|].
  exists r. split; [done|]. destruct Hres as [?|[? ?]]; [by left|].
  right. split; [lia | done].
Qed.

(** More fuel does not change a result. *)
Lemma binarySearch_loop_fuel fuel fuel' arr target l r res :
  (fuel ≤ fuel')%nat →
  binarySearch_loop fuel arr target l r = Ret res →
  binarySearch_loop fuel' arr target l r = Ret res.
Proof.
  revert fuel' l r. induction fuel as [|fuel IH]; intros fuel' l r Hle; [done|].
  destruct fuel' as [|fuel']; [lia|]. cbn [binarySearch_loop].
  destruct (binarySearch_body arr target l r) as [[[l' r']|x]| |]; try done.
  rewrite !bind_Ret. apply IH. lia.
Qed.

(** ** The exchange log of [sortArray] *)

Section inner_logged.
Variables (n i : Z) (bound : Z).
Hypothesis Hbound : wrap (wrap (n - i) - 1) = bound.

Lemma sortArray_inner_logged_pass fuel j data swapped exchanges :
  0 ≤ j ≤ bound → bound < vsize data → bound - j < Z.of_nat fuel →
  sortArray_inner_logged fuel n i j data swapped exchanges
  = Ret (exchange_pass (Z.to_nat (bound - j)) (Z.to_nat j) data,
         swapped
         || exchange_pass_swapped (Z.to_nat (bound - j)) (Z.to_nat j) data,
         (exchanges
          + exchange_pass_exchanges (Z.to_nat (bound - j)) (Z.to_nat j) data)%nat).
Proof.
  revert j data swapped exchanges.
  induction fuel as [|fuel IH]; intros j data swapped exchanges Hj Hsz Hfuel;
    [lia|].
  pose proof (wrap_range (wrap (n - i) - 1)) as Hmax.
  cbn [sortArray_inner_logged]. rewrite Hbound in *.
  destruct (Z.ltb_spec j bound) as [Hlt|Hge].
  - destruct (lookup_index data j) as [a Ha]; [lia|].
    destruct (lookup_index data (j + 1)) as [b Hb]; [lia|].
    replace (Z.to_nat (j + 1)) with (S (Z.to_nat j)) in Hb by lia.
    replace (Z.to_nat (bound - j)) with (S (Z.to_nat (bound - (j + 1))))
      by lia.
    cbn [exchange_pass exchange_pass_swapped exchange_pass_exchanges].
    assert (Hw : wrap (j + 1) = j + 1) by (apply wrap_id; int_arith).
    rewrite !Hw. rewrite !(vget_index data j) by int_arith.
    rewrite !(vget_index data (j + 1)) by int_arith.
    replace (Z.to_nat (j + 1)) with (S (Z.to_nat j)) by lia.
    rewrite Ha, Hb, !bind_Ret.
    unfold exchange_step, exchange_needed. rewrite Ha, Hb.
    destruct (a >? b).
    + rewrite vset_index by int_arith. rewrite bind_Ret.
      rewrite vset_index by (rewrite ?vsize_insert; int_arith).
      rewrite bind_Ret.
      replace (Z.to_nat (j + 1)) with (S (Z.to_nat j)) by lia.
      rewrite IH; [| lia | rewrite !vsize_insert; lia | lia].
      replace (Z.to_nat (j + 1)) with (S (Z.to_nat j)) by lia.
      rewrite orb_true_r. do 2 f_equal. lia.
    + rewrite IH; [| lia | lia | lia].
      by replace (Z.to_nat (j + 1)) with (S (Z.to_nat j)) by lia.
  - replace (Z.to_nat (bound - j)) with O by lia.
    cbn [exchange_pass exchange_pass_swapped exchange_pass_exchanges].
    rewrite orb_false_r. do 2 f_equal. lia.
Qed.
End inner_logged.

(** Dropping the ghost state of the exchange log gives back the loops of
    [sortArray]. *)
Lemma sortArray_inner_logged_erase fuel len i j data swapped exchanges :
  (λ '(out, sw, _), (out, sw))
    <$> sortArray_inner_logged fuel len i j data swapped exchanges
  = sortArray_inner fuel len i j data swapped.
Proof.
  revert j data swapped exchanges.
  induction fuel as [|fuel IH]; intros j data swapped exchanges; [done|].
  cbn [sortArray_inner_logged sortArray_inner].
  destruct (j <? _); [|done].
  destruct (vget data j) as [a| |]; [|done..]. rewrite !bind_Ret.
  destruct (vget data (wrap (j + 1))) as [b| |]; [|done..]. rewrite !bind_Ret.
  destruct (a >? b); [|apply IH].
  destruct (vset data j b) as [data1| |]; [|done..]. rewrite !bind_Ret.
  destruct (vset data1 (wrap (j + 1)) a) as [data2| |]; [|done..].
  rewrite !bind_Ret. apply IH.
Qed.

Lemma sortArray_outer_logged_erase fuel len i data log :
  fst <$> sortArray_outer_logged fuel len i data log
  = sortArray_outer fuel len i data.
Proof.
  revert i data log. induction fuel as [|fuel IH]; intros i data log; [done|].
  cbn [sortArray_outer_logged sortArray_outer].
  destruct (i <? _); [|done].
  rewrite <- (sortArray_inner_logged_erase fuel len i 0 data false 0).
  destruct (sortArray_inner_logged fuel len i 0 data false 0)
    as [[[data1 swapped] exchanges]| |]; [|done..].
  cbn [fmap outcome_fmap]. rewrite !bind_Ret.
  destruct (negb swapped); [done|]. apply IH.
Qed.

Lemma sortArray_logged_erase data :
  fst <$> sortArray_logged data = sortArray data.
Proof. apply sortArray_outer_logged_erase. Qed.

(** [swapped] is set exactly by the passes that exchange something. *)
Lemma exchange_pass_swapped_exchanges cnt j arr :
  exchange_pass_swapped cnt j arr = true
  ↔ exchange_pass_exchanges cnt j arr ≠ O.
Proof.
  revert j arr. induction cnt as [|cnt IH]; intros j arr; simpl; [done|].
  rewrite orb_true_iff, IH. destruct (exchange_needed j arr); [|lia].
  split; [lia | by left].
Qed.

Lemma exchange_log_counts_tracks b arr (k : nat) sw ex :
  exchange_log_counts b arr !! k = Some (sw, ex) → sw = true ↔ ex ≠ O.
Proof.
  revert arr k sw ex. induction b as [|b IH]; intros arr k sw ex Hk; [done|].
  cbn [exchange_log_counts] in Hk.
  pose proof (exchange_pass_swapped_exchanges (S b) 0 arr) as Hiff.
  destruct (exchange_pass_swapped (S b) 0 arr) eqn:Hsw.
  - destruct k as [|k]; [|exact (IH _ k _ _ Hk)].
    change (Some (true, exchange_pass_exchanges (S b) 0 arr) = Some (sw, ex))
      in Hk.
    assert (sw = true ∧ ex = exchange_pass_exchanges (S b) 0 arr)
      as [-> ->] by (split; congruence).
    tauto.
  - destruct k as [|k]; [|by destruct k].
    change (Some (false, exchange_pass_exchanges (S b) 0 arr) = Some (sw, ex))
      in Hk.
    assert (sw = false ∧ ex = exchange_pass_exchanges (S b) 0 arr)
      as [-> ->] by (split; congruence).
    split; [done|]. intros Hex. apply Hiff in Hex. done.
Qed.

Lemma exchange_log_counts_last b arr (k : nat) sw :
  exchange_log_counts b arr !! k = Some (sw, O) →
  S k = length (exchange_log_counts b arr).
Proof.
  revert arr k. induction b as [|b IH]; intros arr k Hk; [done|].
  cbn [exchange_log_counts] in *.
  destruct (exchange_pass_swapped (S b) 0 arr) eqn:Hsw.
  - destruct k as [|k].
    + change (Some (true, exchange_pass_exchanges (S b) 0 arr) = Some (sw, O))
        in Hk.
      assert (exchange_pass_exchanges (S b) 0 arr = O) as Hex by congruence.
      by apply exchange_pass_swapped_exchanges in Hsw.
    + simpl in *. f_equal. by apply IH.
  - destruct k as [|k]; [done|]. by destruct k.
Qed.

Lemma exchange_log_counts_length b arr :
  (length (exchange_log_counts b arr) ≤ b)%nat.
Proof.
  revert arr. induction b as [|b IH]; intros arr; [done|].
  cbn [exchange_log_counts].
  destruct (exchange_pass_swapped (S b) 0 arr); cbn [length]; [|lia].
  specialize (IH (exchange_pass (S b) 0 arr)). lia.
Qed.

Lemma sortArray_outer_logged_log fuel i data log :
  0 ≤ i →
  Z.max (wrap (wrap (vsize data) - 1) - i + 1) 0 < Z.of_nat fuel →
  sortArray_outer_logged fuel (wrap (vsize data)) i data log
  = Ret (exchange_passes (Z.to_nat (wrap (wrap (vsize data) - 1) - i)) data,
         log ++ exchange_log_counts
                  (Z.to_nat (wrap (wrap (vsize data) - 1) - i)) data).
Proof.
  revert i data log.
  induction fuel as [|fuel IH]; intros i data log Hi Hfuel; [lia|].
  cbn [sortArray_outer_logged].
  destruct (Z.ltb_spec i (wrap (wrap (vsize data) - 1))) as [Hlt|Hge].
  - destruct (inner_bound (vsize data) i) as (Hb & Hsz & Hw);
      [unfold vsize; lia | lia |].
    rewrite (sortArray_inner_logged_pass _ _ _ Hb) by lia.
    rewrite bind_Ret, Hw, Z.sub_0_r. change (Z.to_nat 0) with O.
    replace (Z.to_nat (wrap (wrap (vsize data) - 1) - i))
      with (S (Z.to_nat (wrap (wrap (vsize data) - 1) - (i + 1)))) by lia.
    set (b := Z.to_nat (wrap (wrap (vsize data) - 1) - (i + 1))).
    cbn [orb Nat.add exchange_passes exchange_log_counts].
    destruct (exchange_pass_swapped (S b) 0 data) eqn:Hsw; cbn [negb].
    + rewrite <- (vsize_exchange_pass (S b) 0 data) at 1.
      rewrite IH by (rewrite ?vsize_exchange_pass; lia).
      rewrite vsize_exchange_pass. by rewrite <- app_assoc.
    + destruct (exchange_pass_not_swapped _ _ _ Hsw) as [Heq Hord].
      rewrite Heq. do 2 f_equal. symmetry. apply exchange_passes_ordered.
      intros k x y Hk. apply Hord. lia.
  - replace (Z.to_nat (wrap (wrap (vsize data) - 1) - i)) with O by lia.
    cbn [exchange_passes exchange_log_counts]. by rewrite app_nil_r.
Qed.

Lemma sortArray_logged_log data :
  sortArray_logged data
  = Ret (exchange_passes (pass_count (vsize data)) data,
         exchange_log_counts (pass_count (vsize data)) data).
Proof.
  unfold sortArray_logged.
  rewrite sortArray_outer_logged_log by (lia || apply default_fuel; lia).
  by rewrite Z.sub_0_r.
Qed.

Lemma bubbleSort_traced_log arr :
  ∃ log', bubbleSort_traced arr
          = Ret (exchange_passes (pass_count (vsize arr)) arr, log')
          ∧ length log' = pass_count (vsize arr).
Proof.
  pose proof (default_fuel arr (S (length arr)) ltac:(lia)) as Hfuel.
  destruct (bubbleSort_outer_traced_log (S (length arr)) 0 arr [])
    as (log' & Hrun & Hlen); [lia | done |].
  rewrite Z.sub_0_r in Hrun, Hlen. by exists log'.
Qed.

Lemma fits_int_no_overflow arr : fits_int arr → no_int_overflow arr.
Proof. unfold no_int_overflow. int_arith. Qed.

(** Without the overflow the number of passes is [n - 1] for the size [n]
    as an [int], and none when that is not positive. *)
Lemma pass_count_no_overflow arr :
  no_int_overflow arr →
  Z.of_nat (pass_count (vsize arr)) = Z.max (wrap (vsize arr) - 1) 0.
Proof. unfold no_int_overflow. int_arith. Qed.

Lemma exchange_log_counts_swapped b arr :
  (exchange_log_counts b arr).*1 = exchange_log b arr.
Proof.
  revert arr. induction b as [|b IH]; intros arr; [done|].
  cbn [exchange_log_counts exchange_log].
  destruct (exchange_pass_swapped (S b) 0 arr); [|done].
  cbn [fmap list_fmap fst]. by rewrite <- IH.
Qed.

Lemma sortArray_traced_log data :
  sortArray_traced data
  = Ret (exchange_passes (pass_count (vsize data)) data,
         exchange_log (pass_count (vsize data)) data).
Proof.
  unfold sortArray_traced.
  rewrite sortArray_outer_traced_log by (lia || apply default_fuel; lia).
  by rewrite Z.sub_0_r.
Qed.

(** ** The reads of the searches *)

(** Dropping the log of reads gives back the loop of the source. *)
Lemma binarySearch_loop_traced_erase fuel arr target l r reads :
  (binarySearch_loop_traced fuel arr target l r reads).2
  = binarySearch_loop fuel arr target l r.
Proof.
  revert l r reads. induction fuel as [|fuel IH]; intros l r reads; [done|].
  cbn [binarySearch_loop_traced binarySearch_loop]. unfold binarySearch_body.
  destruct (l <=? r); [|done]. cbv zeta.
  destruct (vget arr (wrap (l + wrap (r - l) ÷ 2))) as [v| |]; [|done..].
  rewrite !bind_Ret. destruct (v =? target); [done|].
  rewrite ?bind_Ret. destruct (v <? target); rewrite bind_Ret; apply IH.
Qed.

Lemma binarySearch_traced_erase arr target :
  (binarySearch_traced arr target).2 = binarySearch arr target.
Proof. apply binarySearch_loop_traced_erase. Qed.

Lemma findElement_traced_binarySearch_traced arr target :
  findElement_traced arr target = binarySearch_traced arr target.
Proof. reflexivity. Qed.

(** On a vector that fits [int] every read is in bounds, and the loop reads
    at least once when it is entered. *)
Lemma binarySearch_loop_traced_reads arr target fuel l r reads :
  fits_int arr →
  0 ≤ l → r < vsize arr → l ≤ r + 1 → r - l + 1 < Z.of_nat fuel →
  ∃ new,
    (binarySearch_loop_traced fuel arr target l r reads).1 = reads ++ new
    ∧ Forall (read_in_bounds arr) new
    ∧ (l ≤ r → new ≠ []).
Proof.
  intros Hfits. revert l r reads.
  induction fuel as [|fuel IH]; intros l r reads Hl Hr Hlr Hfuel; [lia|].
  cbn [binarySearch_loop_traced].
  destruct (Z.leb_spec l r) as [Hle|Hgt].
  - destruct (binarySearch_body_round arr target l r)
      as (Hd & Hq & Hmid & Hin & v & Hv & _); [lia | int_arith | lia |].
    cbv zeta. rewrite Hmid. rewrite vget_index by int_arith. rewrite Hv.
    assert (Hread : read_in_bounds arr (l, r, l + (r - l) / 2)).
    { unfold read_in_bounds. repeat split; try lia.
      Z.to_euclidean_division_equations. lia. }
    destruct (v =? target).
    { exists [(l, r, l + (r - l) / 2)]. cbn [fst].
      split; [done|]. split; [by constructor | done]. }
    destruct (v <? target).
    + rewrite (wrap_id (l + (r - l) / 2 + 1)) by int_arith.
      destruct (IH (l + (r - l) / 2 + 1) r
                  ((reads ++ [(l, r, l + (r - l) / 2)])
                   ++ [(l, r, l + (r - l) / 2)]))
        as (new & -> & Hnew & _); [lia..|].
      exists ((l, r, l + (r - l) / 2) :: (l, r, l + (r - l) / 2) :: new).
      split; [by rewrite <- !app_assoc|].
      split; [by do 2 (constructor; [exact Hread|]) | done].
    + assert (Hw : wrap (l + (r - l) / 2 - 1) = l + (r - l) / 2 - 1)
        by int_arith.
      rewrite Hw.
      destruct (IH l (l + (r - l) / 2 - 1)
                  ((reads ++ [(l, r, l + (r - l) / 2)])
                   ++ [(l, r, l + (r - l) / 2)]))
        as (new & -> & Hnew & _); [lia..|].
      exists ((l, r, l + (r - l) / 2) :: (l, r, l + (r - l) / 2) :: new).
      split; [by rewrite <- !app_assoc|].
      split; [by do 2 (constructor; [exact Hread|]) | done].
  - exists []. cbn [fst]. rewrite app_nil_r.
    split; [done|]. split; [constructor | lia].
Qed.

Lemma binarySearch_traced_reads arr target :
  fits_int arr →
  Forall (read_in_bounds arr) (binarySearch_traced arr target).1
  ∧ (arr ≠ [] → (binarySearch_traced arr target).1 ≠ []).
Proof.
  intros Hfits. unfold binarySearch_traced. rewrite entry_right by done.
  destruct (binarySearch_loop_traced_reads arr target (S (length arr))
              0 (vsize arr - 1) [] Hfits) as (new & -> & Hnew & Hne);
    [unfold vsize; lia..|].
  split; [done|]. intros Harr. apply Hne.
  destruct arr; [done|]. unfold vsize. cbn [length]. lia.
Qed.

Section oversized_reads.
Variable n : nat.
Hypothesis Hn : Z.of_nat n = 2 ^ 31.

(** On [2^31] zeros searched for [1] the log of reads holds a read at
    [INT_MIN]. *)
Lemma oversized_loop_traced fuel l reads :
  0 ≤ l ≤ INT_MAX → INT_MAX - l + 2 ≤ Z.of_nat fuel →
  (INT_MIN, INT_MAX, INT_MIN)
  ∈ (binarySearch_loop_traced fuel (replicate n 0) 1 l INT_MAX reads).1.
Proof.
  revert l reads.
  induction fuel as [|fuel IH]; intros l reads Hl Hfuel; [int_arith|].
  cbn [binarySearch_loop_traced].
  destruct (Z.leb_spec l INT_MAX) as [_|?]; [|lia]. cbv zeta.
  destruct (binarySearch_body_round (replicate n 0) 1 l INT_MAX)
    as (_ & _ & Hmid & Hin & v & Hv & _);
    [lia | lia | rewrite (oversized_vsize n Hn); int_arith |].
  apply lookup_replicate in Hv as Hv'. destruct Hv' as [-> _].
  rewrite Hmid. rewrite vget_index by int_arith. rewrite Hv.
  change (0 =? 1) with false. change (0 <? 1) with true. cbv iota.
  destruct (decide (l = INT_MAX)) as [->|Hne].
  - change (wrap (INT_MAX + (INT_MAX - INT_MAX) / 2 + 1)) with INT_MIN.
    destruct fuel as [|fuel]; [int_arith|].
    cbn [binarySearch_loop_traced].
    change (INT_MIN <=? INT_MAX) with true. cbv iota zeta.
    change (wrap (INT_MIN + wrap (INT_MAX - INT_MIN) ÷ 2)) with INT_MIN.
    rewrite (oversized_vget n Hn). cbn [fst].
    apply elem_of_app. right. by apply list_elem_of_singleton.
  - rewrite wrap_id by int_arith. apply IH; int_arith.
Qed.

Lemma oversized_reads_out_of_bounds :
  ¬ Forall (read_in_bounds (replicate n 0))
      (binarySearch_traced (replicate n 0) 1).1.
Proof.
  intros Hall. rewrite Forall_forall in Hall.
  assert (Hin : (INT_MIN, INT_MAX, INT_MIN)
                ∈ (binarySearch_traced (replicate n 0) 1).1).
  { unfold binarySearch_traced. rewrite (oversized_entry n Hn).
    rewrite length_replicate. apply oversized_loop_traced; int_arith. }
  apply Hall in Hin. unfold read_in_bounds in Hin.
  destruct Hin as (_ & _ & _ & _ & _ & Hlo & _). int_arith.
Qed.
End oversized_reads.

(** * The properties of the specification *)

(** ** ExchangeSort *)

(** C4. For every vector on which the sorts are defined, [bubbleSort] and
    [sortArray] return, and the vector returned is a permutation of the
    vector given: the multiset of elements is unchanged. *)
Theorem exchange_sort_permutation (arr : list Z) :
  no_int_overflow arr →
  (∃ out, bubbleSort arr = Ret out ∧ out ≡ₚ arr)
  ∧ (∃ out, sortArray arr = Ret out ∧ out ≡ₚ arr).
Proof.
  intros _. rewrite bubbleSort_passes, sortArray_passes.
  split; eexists; (split; [done | apply exchange_passes_perm]).
Qed.

Lemma exchange_sort_permutation_witness :
  no_int_overflow [5; 3; 1; 4; 2]
  ∧ (∃ out, bubbleSort [5; 3; 1; 4; 2] = Ret out ∧ out ≡ₚ [5; 3; 1; 4; 2])
  ∧ (∃ out, sortArray [5; 3; 1; 4; 2] = Ret out ∧ out ≡ₚ [5; 3; 1; 4; 2]).
Proof.
  assert (H : no_int_overflow [5; 3; 1; 4; 2]) by (vm_compute; discriminate).
  split; [exact H | exact (exchange_sort_permutation [5; 3; 1; 4; 2] H)].
Defined.

(** C9. For every vector on which the sorts are defined, sorting the sorted
    vector again returns it unchanged, with [bubbleSort] and with
    [sortArray]. *)
Theorem exchange_sort_idempotent (arr : list Z) :
  no_int_overflow arr →
  (∃ out, bubbleSort arr = Ret out ∧ bubbleSort out = Ret out)
  ∧ (∃ out, sortArray arr = Ret out ∧ sortArray out = Ret out).
Proof.
  intros _.
  assert (Hagain : exchange_passes (pass_count (vsize arr))
                     (exchange_passes (pass_count (vsize arr)) arr)
                   = exchange_passes (pass_count (vsize arr)) arr).
  { destruct arr as [|a arr]; [done|].
    apply exchange_passes_ordered, exchange_passes_result_ordered.
    by apply pass_count_lt. }
  assert (Hsz : vsize (exchange_passes (pass_count (vsize arr)) arr)
                = vsize arr).
  { unfold vsize. by rewrite exchange_passes_length. }
  split; eexists; (split; [by rewrite ?bubbleSort_passes, ?sortArray_passes|]).
  - by rewrite bubbleSort_passes, Hsz, Hagain.
  - by rewrite sortArray_passes, Hsz, Hagain.
Qed.

Lemma exchange_sort_idempotent_witness :
  no_int_overflow [5; 3; 1; 4; 2]
  ∧ (∃ out, bubbleSort [5; 3; 1; 4; 2] = Ret out ∧ bubbleSort out = Ret out)
  ∧ (∃ out, sortArray [5; 3; 1; 4; 2] = Ret out ∧ sortArray out = Ret out).
Proof.
  assert (H : no_int_overflow [5; 3; 1; 4; 2]) by (vm_compute; discriminate).
  split; [exact H | exact (exchange_sort_idempotent [5; 3; 1; 4; 2] H)].
Defined.

(** C3. The two files implement one component: on every vector on which
    the sorts are defined [bubbleSort] and [sortArray] return the same
    vector, and on every vector and target [findElement] and [binarySearch]
    have the same outcome, whatever the fuel. *)
Theorem clone_equivalence (arr : list Z) (target : Z) :
  (no_int_overflow arr →
   ∃ out, bubbleSort arr = Ret out ∧ sortArray arr = Ret out)
  ∧ findElement arr target = binarySearch arr target
  ∧ (∀ fuel, findElement_fuel fuel arr target
             = binarySearch_fuel fuel arr target).
Proof.
  split.
  { intros _. rewrite bubbleSort_passes, sortArray_passes. by eexists. }
  split; [reflexivity|]. intros fuel. reflexivity.
Qed.

Lemma clone_equivalence_witness :
  no_int_overflow [5; 3; 1; 4; 2]
  ∧ (∃ out, bubbleSort [5; 3; 1; 4; 2] = Ret out
            ∧ sortArray [5; 3; 1; 4; 2] = Ret out)
  ∧ findElement [5; 3; 1; 4; 2] 4 = binarySearch [5; 3; 1; 4; 2] 4.
Proof.
  assert (H : no_int_overflow [5; 3; 1; 4; 2]) by (vm_compute; discriminate).
  destruct (clone_equivalence [5; 3; 1; 4; 2] 4) as (Hsort & Hsearch & _).
  split; [exact H|]. split; [exact (Hsort H) | exact Hsearch].
Defined.

(** C1, as amended. For every vector of at most [INT_MAX] elements,
    [bubbleSort] and [sortArray] return a vector in which every adjacent
    pair [(i, i+1)] is in ascending order. *)
Theorem exchange_sort_sorted (arr : list Z) :
  fits_int arr →
  (∃ out, bubbleSort arr = Ret out ∧ sorted out)
  ∧ (∃ out, sortArray arr = Ret out ∧ sorted out).
Proof.
  intros Hfits. rewrite bubbleSort_passes, sortArray_passes.
  assert (Hs : sorted (exchange_passes (pass_count (vsize arr)) arr)).
  { destruct arr as [|a arr]; [by intros [|k] |].
    apply ordered_upto_sorted.
    rewrite exchange_passes_length, <- pass_count_fits by done.
    apply exchange_passes_result_ordered. by apply pass_count_lt. }
  split; by eexists.
Qed.

Lemma exchange_sort_sorted_witness :
  fits_int [5; 3; 1; 4; 2]
  ∧ (∃ out, bubbleSort [5; 3; 1; 4; 2] = Ret out ∧ sorted out)
  ∧ (∃ out, sortArray [5; 3; 1; 4; 2] = Ret out ∧ sorted out).
Proof.
  assert (H : fits_int [5; 3; 1; 4; 2]).
  { unfold fits_int, vsize, INT_MAX. simpl. lia. }
  split; [exact H | exact (exchange_sort_sorted [5; 3; 1; 4; 2] H)].
Defined.

(** C1, as stated, fails on a vector of [2^31 + 2] elements: its size
    converts to a negative [int], no pass is made, and the vector comes back
    as it was, with its first pair out of order. *)
Lemma exchange_sort_oversized_unsorted :
  bubbleSort (1 :: 0 :: zeros (2 ^ 31)) = Ret (1 :: 0 :: zeros (2 ^ 31))
  ∧ sortArray (1 :: 0 :: zeros (2 ^ 31)) = Ret (1 :: 0 :: zeros (2 ^ 31))
  ∧ ¬ sorted (1 :: 0 :: zeros (2 ^ 31)).
Proof.
  assert (Hsz : 2 ^ 31 < vsize (1 :: 0 :: zeros (2 ^ 31)) ≤ 2 ^ 32).
  { rewrite !vsize_cons, vsize_zeros; lia. }
  destruct (skipped_sort _ Hsz) as [Hb Hs].
  split; [exact Hb|]. split; [exact Hs|].
  apply descent_not_sorted. lia.
Qed.

(** C2, as amended. On every vector on which the sorts are defined,
    [sortArray] tracks in [swapped] whether a pass exchanged anything
    ([swapped] ends a pass at [true] exactly when the pass made an
    exchange) and makes no further pass after one that made none: in its
    log a pass with zero exchanges is the last one. The early exit does not
    change the result, which is the vector [bubbleSort] returns.
    [bubbleSort] has no such exit: it makes all its [n - 1] passes, never
    fewer than [sortArray]. *)
Theorem sortArray_early_exit (data : list Z) :
  no_int_overflow data →
  ∃ out log,
    sortArray_logged data = Ret (out, log)
    ∧ sortArray data = Ret out
    ∧ (∀ (k : nat) sw ex, log !! k = Some (sw, ex) → sw = true ↔ ex ≠ O)
    ∧ (∀ (k : nat) sw, log !! k = Some (sw, O) → S k = length log)
    ∧ sortArray_traced data = Ret (out, log.*1)
    ∧ early_exit (log.*1)
    ∧ bubbleSort data = Ret out
    ∧ ∃ log', bubbleSort_traced data = Ret (out, log')
              ∧ Z.of_nat (length log') = Z.max (wrap (vsize data) - 1) 0
              ∧ (length log ≤ length log')%nat.
Proof.
  intros Hdef.
  destruct (bubbleSort_traced_log data) as (log' & Hrun & Hlen).
  exists (exchange_passes (pass_count (vsize data)) data),
    (exchange_log_counts (pass_count (vsize data)) data).
  split; [apply sortArray_logged_log|].
  split; [apply sortArray_passes|].
  split; [intros k sw ex; apply exchange_log_counts_tracks|].
  split; [intros k sw; apply exchange_log_counts_last|].
  rewrite exchange_log_counts_swapped.
  split; [apply sortArray_traced_log|].
  split; [apply exchange_log_early_exit|].
  split; [apply bubbleSort_passes|].
  exists log'. split; [done|].
  split; [by rewrite Hlen, pass_count_no_overflow|].
  rewrite Hlen. apply exchange_log_counts_length.
Qed.

Lemma sortArray_early_exit_witness :
  no_int_overflow [2; 1; 3; 4; 5]
  ∧ ∃ out log,
    sortArray_logged [2; 1; 3; 4; 5] = Ret (out, log)
    ∧ sortArray [2; 1; 3; 4; 5] = Ret out
    ∧ (∀ (k : nat) sw ex, log !! k = Some (sw, ex) → sw = true ↔ ex ≠ O)
    ∧ (∀ (k : nat) sw, log !! k = Some (sw, O) → S k = length log)
    ∧ sortArray_traced [2; 1; 3; 4; 5] = Ret (out, log.*1)
    ∧ early_exit (log.*1)
    ∧ bubbleSort [2; 1; 3; 4; 5] = Ret out
    ∧ ∃ log', bubbleSort_traced [2; 1; 3; 4; 5] = Ret (out, log')
              ∧ Z.of_nat (length log')
                = Z.max (wrap (vsize [2; 1; 3; 4; 5]) - 1) 0
              ∧ (length log ≤ length log')%nat.
Proof.
  assert (H : no_int_overflow [2; 1; 3; 4; 5]) by (vm_compute; discriminate).
  split; [exact H | exact (sortArray_early_exit [2; 1; 3; 4; 5] H)].
Defined.

(** C2, as stated for every implementation, fails for [bubbleSort]: on
    [[1; 2; 3]] its first pass exchanges nothing and a second pass is made
    all the same. *)
Lemma bubbleSort_no_early_exit :
  bubbleSort_traced [1; 2; 3] = Ret ([1; 2; 3], [false; false])
  ∧ ¬ early_exit [false; false].
Proof.
  split; [vm_compute; reflexivity|].
  intros Hexit. specialize (Hexit O eq_refl). discriminate.
Qed.

(** ** OrderedSearch *)







(** C5, as amended. For every sorted vector of at most [2^31] elements
    (every index is an [int]) and every valid index [k], searching for the
    element at [k] returns an index that holds the same value, with
    [binarySearch] and with [findElement]. *)
Theorem search_present (arr : list Z) (k : nat) (v : Z) :
  vsize arr ≤ 2 ^ 31 → sorted arr → arr !! k = Some v →
  (∃ k' : nat, binarySearch arr v = Ret (Z.of_nat k') ∧ arr !! k' = Some v)
  ∧ (∃ k' : nat, findElement arr v = Ret (Z.of_nat k') ∧ arr !! k' = Some v).
Proof.
  intros Hsize Hsorted Hk.
  assert (H : ∃ k' : nat,
             binarySearch arr v = Ret (Z.of_nat k') ∧ arr !! k' = Some v).
  { unfold binarySearch, binarySearch_fuel.
    pose proof (lookup_lt_Some _ _ _ Hk) as Hlen.
    assert (Hentry : wrap (to_size_t (vsize arr - 1)) = vsize arr - 1)
      by int_arith.
    rewrite Hentry.
    destruct (binarySearch_loop_finds arr v Hsorted (S (length arr))
                0 (vsize arr - 1)) as (r & Hr & Hres & Hrv);
      [lia | int_arith | unfold vsize; lia.. | |].
    { exists (Z.of_nat k). rewrite Nat2Z.id. unfold vsize. split; [lia | done]. }
    exists (Z.to_nat r). rewrite Z2Nat.id by lia. by split. }
  split; exact H.
Qed.

Lemma search_present_witness :
  vsize [1; 2; 3; 4; 5] ≤ 2 ^ 31 ∧ sorted [1; 2; 3; 4; 5]
  ∧ ([1; 2; 3; 4; 5]) !! 3%nat = Some 4
  ∧ (∃ k' : nat, binarySearch [1; 2; 3; 4; 5] 4 = Ret (Z.of_nat k')
                 ∧ [1; 2; 3; 4; 5] !! k' = Some 4)
  ∧ (∃ k' : nat, findElement [1; 2; 3; 4; 5] 4 = Ret (Z.of_nat k')
                 ∧ [1; 2; 3; 4; 5] !! k' = Some 4).
Proof.
  assert (H : vsize [1; 2; 3; 4; 5] ≤ 2 ^ 31).
  { unfold vsize. simpl. lia. }
  assert (Hs : sorted [1; 2; 3; 4; 5]).
  { apply sortedb_sorted. reflexivity. }
  split; [exact H|]. split; [exact Hs|]. split; [reflexivity|].
  exact (search_present [1; 2; 3; 4; 5] 3 4 H Hs eq_refl).
Defined.

(** C5, as stated for every sorted vector, fails on [2^31 + 1] zeros: the
    last index converts to a negative [int], the loop is not entered, and
    the search for the element at index [0] returns [-1]. *)
Lemma search_oversized_present :
  sorted (zeros (2 ^ 31 + 1))
  ∧ (zeros (2 ^ 31 + 1)) !! 0%nat = Some 0
  ∧ binarySearch (zeros (2 ^ 31 + 1)) 0 = Ret (-1)
  ∧ findElement (zeros (2 ^ 31 + 1)) 0 = Ret (-1).
Proof.
  assert (Hsz : 2 ^ 31 < vsize (zeros (2 ^ 31 + 1)) ≤ 2 ^ 32).
  { rewrite vsize_zeros; lia. }
  split.
  { unfold zeros. intros k x y Hx Hy.
    apply lookup_replicate in Hx as [-> _].
    apply lookup_replicate in Hy as [-> _]. lia. }
  split.
  { unfold zeros. apply lookup_replicate_2. lia. }
  split; [|rewrite (findElement_binarySearch (zeros _) 0)];
    exact (skipped_search _ Hsz 0).
Qed.

Example reads_found :
  binarySearch_traced [1; 2; 3; 4; 5] 4
  = ([(0, 4, 2); (0, 4, 2); (3, 4, 3)], Ret 3).
Proof. vm_compute; reflexivity. Qed.

Example reads_absent :
  findElement_traced [1; 2; 3] 0 = ([(0, 2, 1); (0, 2, 1); (0, 0, 0); (0, 0, 0)], Ret (-1)).
Proof. vm_compute; reflexivity. Qed.







(** * Further properties of the two sorts *)

Lemma sorted_ordered_upto b arr : sorted arr → ordered_upto b arr.
Proof. intros Hs k x y _. apply Hs. Qed.

Lemma sorted_tail a arr : sorted (a :: arr) → sorted arr.
Proof. intros Hs k x y Hx Hy. by apply (Hs (S k)). Qed.

Lemma sorted_Sorted arr : sorted arr → Sorted Z.le arr.
Proof.
  induction arr as [|a arr IH]; intros Hs; [constructor|].
  constructor; [by eapply IH, sorted_tail|].
  destruct arr as [|b arr]; constructor. by apply (Hs O).
Qed.

(** The passes leave a vector that fits [int] in ascending order. *)
Lemma exchange_passes_sorted arr :
  fits_int arr → sorted (exchange_passes (pass_count (vsize arr)) arr).
Proof.
  intros Hfits. destruct arr as [|a arr]; [by intros [|k] |].
  apply ordered_upto_sorted.
  rewrite exchange_passes_length, <- pass_count_fits by done.
  apply exchange_passes_result_ordered. by apply pass_count_lt.
Qed.

Lemma fits_int_perm arr arr' : arr ≡ₚ arr' → fits_int arr → fits_int arr'.
Proof.
  intros Hp. unfold fits_int, vsize. by rewrite (Permutation_length Hp).
Qed.

(** X1. A vector already in ascending order, of any size on which the sorts
    are defined, is returned as it is by [bubbleSort] and by [sortArray]. *)
Theorem sorted_input_unchanged (arr : list Z) :
  no_int_overflow arr → sorted arr →
  bubbleSort arr = Ret arr ∧ sortArray arr = Ret arr.
Proof.
  intros _ Hs. rewrite bubbleSort_passes, sortArray_passes.
  by rewrite exchange_passes_ordered by by apply sorted_ordered_upto.
Qed.

Lemma sorted_input_unchanged_witness :
  no_int_overflow [1; 2; 2; 5] ∧ sorted [1; 2; 2; 5]
  ∧ bubbleSort [1; 2; 2; 5] = Ret [1; 2; 2; 5]
  ∧ sortArray [1; 2; 2; 5] = Ret [1; 2; 2; 5].
Proof.
  assert (H : no_int_overflow [1; 2; 2; 5]) by (vm_compute; discriminate).
  assert (Hs : sorted [1; 2; 2; 5]) by (apply sortedb_sorted; reflexivity).
  split; [exact H|]. split; [exact Hs|].
  exact (sorted_input_unchanged [1; 2; 2; 5] H Hs).
Defined.

(** X2. On a vector of at most [INT_MAX] elements, [bubbleSort] and
    [sortArray] return the list a merge sort by [≤] returns: the one
    ascending arrangement of the elements. *)
Theorem sort_is_merge_sort (arr : list Z) :
  fits_int arr →
  bubbleSort arr = Ret (merge_sort Z.le arr)
  ∧ sortArray arr = Ret (merge_sort Z.le arr).
Proof.
  intros Hfits. rewrite bubbleSort_passes, sortArray_passes.
  assert (Heq : exchange_passes (pass_count (vsize arr)) arr
                = merge_sort Z.le arr).
  { apply (Sorted_unique Z.le).
    - by apply sorted_Sorted, exchange_passes_sorted.
    - apply (Sorted_merge_sort Z.le).
    - by rewrite exchange_passes_perm, merge_sort_Permutation. }
  by rewrite Heq.
Qed.

Lemma sort_is_merge_sort_witness :
  fits_int [5; 3; 1; 4; 2]
  ∧ bubbleSort [5; 3; 1; 4; 2] = Ret (merge_sort Z.le [5; 3; 1; 4; 2])
  ∧ sortArray [5; 3; 1; 4; 2] = Ret (merge_sort Z.le [5; 3; 1; 4; 2]).
Proof.
  assert (H : fits_int [5; 3; 1; 4; 2]).
  { unfold fits_int, vsize, INT_MAX. simpl. lia. }
  split; [exact H | exact (sort_is_merge_sort [5; 3; 1; 4; 2] H)].
Defined.

(** X3. The result of a sort depends on the elements only, not on their
    order: two vectors of at most [INT_MAX] elements that are permutations
    of each other are sorted to the same vector, by either function. *)
Theorem sort_permutation_invariant (arr arr' : list Z) :
  fits_int arr → arr ≡ₚ arr' →
  ∃ out, bubbleSort arr = Ret out ∧ bubbleSort arr' = Ret out
         ∧ sortArray arr = Ret out ∧ sortArray arr' = Ret out.
Proof.
  intros Hfits Hperm.
  pose proof (fits_int_perm _ _ Hperm Hfits) as Hfits'.
  rewrite !bubbleSort_passes, !sortArray_passes.
  assert (Heq : exchange_passes (pass_count (vsize arr)) arr
                = exchange_passes (pass_count (vsize arr')) arr').
  { apply (Sorted_unique Z.le).
    - by apply sorted_Sorted, exchange_passes_sorted.
    - by apply sorted_Sorted, exchange_passes_sorted.
    - by rewrite !exchange_passes_perm. }
  rewrite Heq. by eexists.
Qed.

Lemma sort_permutation_invariant_witness :
  fits_int [3; 1; 2] ∧ [3; 1; 2] ≡ₚ [2; 3; 1]
  ∧ ∃ out, bubbleSort [3; 1; 2] = Ret out ∧ bubbleSort [2; 3; 1] = Ret out
           ∧ sortArray [3; 1; 2] = Ret out ∧ sortArray [2; 3; 1] = Ret out.
Proof.
  assert (H : fits_int [3; 1; 2]).
  { unfold fits_int, vsize, INT_MAX. simpl. lia. }
  assert (Hp : [3; 1; 2] ≡ₚ [2; 3; 1]).
  { change ([3; 1; 2] ≡ₚ [2] ++ 3 :: [1]).
    apply Permutation_cons_app, Permutation_swap. }
  split; [exact H|]. split; [exact Hp|].
  exact (sort_permutation_invariant [3; 1; 2] [2; 3; 1] H Hp).
Defined.

(** * Further properties of the two searches *)

Lemma binarySearch_present (arr : list Z) (k : nat) (v : Z) :
  fits_int arr → sorted arr → arr !! k = Some v →
  ∃ k' : nat, binarySearch arr v = Ret (Z.of_nat k') ∧ arr !! k' = Some v.
Proof.
  intros Hfits Hsorted Hk.
  unfold binarySearch, binarySearch_fuel. rewrite entry_right by done.
  pose proof (lookup_lt_Some _ _ _ Hk) as Hlen.
  destruct (binarySearch_loop_finds arr v Hsorted (S (length arr))
              0 (vsize arr - 1)) as (r & Hr & Hres & Hrv);
    [lia | int_arith | unfold vsize; lia.. | |].
  { exists (Z.of_nat k). rewrite Nat2Z.id. unfold vsize. split; [lia | done]. }
  exists (Z.to_nat r). rewrite Z2Nat.id by lia. by split.
Qed.

Lemma binarySearch_absent (arr : list Z) (v : Z) :
  fits_int arr → v ∉ arr → binarySearch arr v = Ret (-1).
Proof.
  intros Hfits Hv. destruct (binarySearch_result arr v Hfits) as (r & -> & Hr).
  destruct Hr as [->|[_ Hr]]; [done|].
  destruct Hv. by apply list_elem_of_lookup_2 in Hr.
Qed.

(** X4. Sorting and then searching decides membership: for a vector of at
    most [INT_MAX] elements, a search of the sorted vector returns an index
    holding [v] when [v] is an element of the vector given, and [-1] when
    it is not. *)
Theorem sort_then_search (arr : list Z) (v : Z) :
  fits_int arr →
  ∃ out, bubbleSort arr = Ret out ∧ sortArray arr = Ret out
    ∧ (v ∈ arr →
       ∃ k : nat, binarySearch out v = Ret (Z.of_nat k)
                  ∧ findElement out v = Ret (Z.of_nat k)
                  ∧ out !! k = Some v)
    ∧ (v ∉ arr →
       binarySearch out v = Ret (-1) ∧ findElement out v = Ret (-1)).
Proof.
  intros Hfits. exists (exchange_passes (pass_count (vsize arr)) arr).
  rewrite bubbleSort_passes, sortArray_passes.
  pose proof (exchange_passes_perm (pass_count (vsize arr)) arr) as Hperm.
  assert (Hfits' : fits_int (exchange_passes (pass_count (vsize arr)) arr)).
  { by apply (fits_int_perm arr). }
  pose proof (exchange_passes_sorted arr Hfits) as Hsorted.
  split; [done|]. split; [done|]. split.
  - intros Hin. rewrite <- Hperm in Hin.
    apply list_elem_of_lookup in Hin as [k0 Hk0].
    destruct (binarySearch_present _ k0 v Hfits' Hsorted Hk0) as (k & Hk & Hv).
    exists k. change (findElement ?a ?t) with (binarySearch a t). done.
  - intros Hnotin. rewrite <- Hperm in Hnotin.
    change (findElement ?a ?t) with (binarySearch a t).
    split; by apply binarySearch_absent.
Qed.

Lemma sort_then_search_witness :
  fits_int [5; 3; 1; 4; 2]
  ∧ ∃ out, bubbleSort [5; 3; 1; 4; 2] = Ret out
    ∧ sortArray [5; 3; 1; 4; 2] = Ret out
    ∧ (4 ∈ [5; 3; 1; 4; 2] →
       ∃ k : nat, binarySearch out 4 = Ret (Z.of_nat k)
                  ∧ findElement out 4 = Ret (Z.of_nat k)
                  ∧ out !! k = Some 4)
    ∧ (4 ∉ [5; 3; 1; 4; 2] →
       binarySearch out 4 = Ret (-1) ∧ findElement out 4 = Ret (-1)).
Proof.
  assert (H : fits_int [5; 3; 1; 4; 2]).
  { unfold fits_int, vsize, INT_MAX. simpl. lia. }
  split; [exact H | exact (sort_then_search [5; 3; 1; 4; 2] 4 H)].
Defined.

Lemma strictly_sorted_sorted arr : strictly_sorted arr → sorted arr.
Proof. intros Hs k x y Hx Hy. specialize (Hs k x y Hx Hy). lia. Qed.

Lemma strictly_sorted_lt arr (p q : nat) x y :
  strictly_sorted arr → (p < q)%nat →
  arr !! p = Some x → arr !! q = Some y → x < y.
Proof.
  intros Hs Hpq Hx. revert y.
  induction Hpq as [|q Hpq IH]; intros y Hy.
  - by apply (Hs p).
  - destruct (lookup_lt_is_Some_2 arr q) as [z Hz].
    { apply lookup_lt_Some in Hy. lia. }
    specialize (IH z Hz). specialize (Hs q z y Hz Hy). lia.
Qed.

Lemma strictly_sortedb_strictly_sorted arr :
  strictly_sortedb arr = true → strictly_sorted arr.
Proof.
  induction arr as [|a [|b rest] IH]; intros Hb k x y Hx Hy.
  - done.
  - by destruct k.
  - cbn [strictly_sortedb] in Hb. apply andb_true_iff in Hb as [Hab Hrest].
    destruct k as [|k].
    + injection Hx as <-. injection Hy as <-. lia.
    + by apply (IH Hrest k).
Qed.

(** X5. In a strictly ascending vector (no duplicates) of at most [INT_MAX]
    elements, the search for the element at index [k] returns [k] itself. *)
Theorem search_exact_index (arr : list Z) (k : nat) (v : Z) :
  fits_int arr → strictly_sorted arr → arr !! k = Some v →
  binarySearch arr v = Ret (Z.of_nat k) ∧ findElement arr v = Ret (Z.of_nat k).
Proof.
  intros Hfits Hs Hk.
  destruct (binarySearch_present arr k v Hfits (strictly_sorted_sorted _ Hs) Hk)
    as (k' & Hrun & Hk').
  assert (k' = k) as ->.
  { destruct (Nat.lt_trichotomy k' k) as [Hlt|[->|Hlt]]; [|done|].
    - pose proof (strictly_sorted_lt arr k' k v v Hs Hlt Hk' Hk). lia.
    - pose proof (strictly_sorted_lt arr k k' v v Hs Hlt Hk Hk'). lia. }
  change (findElement ?a ?t) with (binarySearch a t). done.
Qed.

Lemma search_exact_index_witness :
  fits_int [1; 2; 3; 4; 5] ∧ strictly_sorted [1; 2; 3; 4; 5]
  ∧ ([1; 2; 3; 4; 5]) !! 1%nat = Some 2
  ∧ binarySearch [1; 2; 3; 4; 5] 2 = Ret (Z.of_nat 1)
  ∧ findElement [1; 2; 3; 4; 5] 2 = Ret (Z.of_nat 1).
Proof.
  assert (H : fits_int [1; 2; 3; 4; 5]).
  { unfold fits_int, vsize, INT_MAX. simpl. lia. }
  assert (Hs : strictly_sorted [1; 2; 3; 4; 5]).
  { apply strictly_sortedb_strictly_sorted. reflexivity. }
  split; [exact H|]. split; [exact Hs|]. split; [reflexivity|].
  exact (search_exact_index [1; 2; 3; 4; 5] 1 2 H Hs eq_refl).
Defined.

(** Halving: with fewer than [2^f] elements between [left] and [right],
    [f + 1] tests of the loop condition end the loop. *)
Lemma binarySearch_loop_halving (arr : list Z) (target : Z) f l r :
  fits_int arr →
  0 ≤ l → r < vsize arr → l ≤ r + 1 → r - l + 1 < 2 ^ Z.of_nat f →
  ∃ res, binarySearch_loop (S f) arr target l r = Ret res.
Proof.
  intros Hfits. revert l r.
  induction f as [|f IH]; intros l r Hl Hr Hlr Hsize.
  - cbn [binarySearch_loop]. rewrite binarySearch_body_exit by (simpl in Hsize; lia).
    by eexists.
  - rewrite Nat2Z.inj_succ, Z.pow_succ_r in Hsize by lia.
    remember (S f) as fuel eqn:Hfuel. cbn [binarySearch_loop]. subst fuel.
    destruct (Z.le_gt_cases l r) as [Hle|Hgt].
    + destruct (binarySearch_body_round arr target l r)
        as (_ & _ & _ & Hmid & v & Hv & ->); [lia | int_arith | lia |].
      destruct (v =? target); [rewrite bind_Ret; by eexists|].
      destruct (v <? target); rewrite bind_Ret.
      * rewrite (wrap_id (l + (r - l) / 2 + 1)) by int_arith.
        apply IH; [lia.. |].
        generalize dependent (2 ^ Z.of_nat f). intros p Hsize.
        Z.to_euclidean_division_equations. lia.
      * apply IH; [lia.. |].
        generalize dependent (2 ^ Z.of_nat f). intros p Hsize.
        Z.to_euclidean_division_equations. lia.
    + rewrite binarySearch_body_exit by lia. rewrite bind_Ret. by eexists.
Qed.

(** X6. A search of [n ≤ INT_MAX] elements is logarithmic: fuel is used
    up one unit for each test of the loop condition, and
    [⌊log2 n⌋ + 2] units are enough for the search to return its result. *)
Theorem search_logarithmic (arr : list Z) (target : Z) (fuel : nat) :
  fits_int arr → Z.log2 (vsize arr) + 2 ≤ Z.of_nat fuel →
  ∃ res, binarySearch_fuel fuel arr target = Ret res
         ∧ findElement_fuel fuel arr target = Ret res
         ∧ binarySearch arr target = Ret res
         ∧ findElement arr target = Ret res.
Proof.
  intros Hfits Hfuel.
  destruct fuel as [|f]; [pose proof (Z.log2_nonneg (vsize arr)); lia|].
  assert (Hsize : vsize arr < 2 ^ Z.of_nat f).
  { destruct (decide (vsize arr = 0)) as [->|Hne].
    - apply Z.pow_pos_nonneg; lia.
    - assert (0 < vsize arr) as Hpos by (unfold vsize in *; lia).
      destruct (Z.log2_spec _ Hpos) as [_ Hup].
      eapply Z.lt_le_trans; [exact Hup|].
      apply Z.pow_le_mono_r; lia. }
  destruct (binarySearch_loop_halving arr target f 0 (vsize arr - 1))
    as (res & Hres); [done | lia | lia | unfold vsize; lia | lia |].
  assert (Hrun : binarySearch_fuel (S f) arr target = Ret res).
  { unfold binarySearch_fuel. by rewrite entry_right. }
  destruct (binarySearch_result arr target Hfits) as (res' & Hres' & _).
  assert (res' = res) as ->.
  { pose proof (binarySearch_loop_fuel (S f) (S f `max` S (length arr))
                  arr target _ _ res ltac:(lia) Hrun) as H1.
    pose proof (binarySearch_loop_fuel (S (length arr))
                  (S f `max` S (length arr))
                  arr target _ _ res' ltac:(lia) Hres') as H2.
    congruence. }
  exists res.
  change (findElement_fuel ?g ?a ?t) with (binarySearch_fuel g a t).
  change (findElement ?a ?t) with (binarySearch a t). done.
Qed.

Lemma search_logarithmic_witness :
  fits_int [1; 2; 3; 4; 5; 6; 7; 8]
  ∧ Z.log2 (vsize [1; 2; 3; 4; 5; 6; 7; 8]) + 2 ≤ Z.of_nat 5
  ∧ ∃ res, binarySearch_fuel 5 [1; 2; 3; 4; 5; 6; 7; 8] 9 = Ret res
           ∧ findElement_fuel 5 [1; 2; 3; 4; 5; 6; 7; 8] 9 = Ret res
           ∧ binarySearch [1; 2; 3; 4; 5; 6; 7; 8] 9 = Ret res
           ∧ findElement [1; 2; 3; 4; 5; 6; 7; 8] 9 = Ret res.
Proof.
  assert (H : fits_int [1; 2; 3; 4; 5; 6; 7; 8]).
  { unfold fits_int, vsize, INT_MAX. simpl. lia. }
  assert (Hf : Z.log2 (vsize [1; 2; 3; 4; 5; 6; 7; 8]) + 2 ≤ Z.of_nat 5).
  { vm_compute. discriminate. }
  split; [exact H|]. split; [exact Hf|].
  exact (search_logarithmic [1; 2; 3; 4; 5; 6; 7; 8] 9 5 H Hf).
Defined.

(** X7. A vector of more than [2^31] and at most [2^32] elements is too
    long for the [int] that holds its size: both sorts return it as it is,
    and both searches return [-1] for every target, without a single
    comparison. *)
Theorem oversized_silent (arr : list Z) :
  2 ^ 31 < vsize arr ≤ 2 ^ 32 →
  bubbleSort arr = Ret arr ∧ sortArray arr = Ret arr
  ∧ ∀ target, binarySearch arr target = Ret (-1)
              ∧ findElement arr target = Ret (-1).
Proof.
  intros Hsz. destruct (skipped_sort arr Hsz) as [Hb Hs].
  split; [exact Hb|]. split; [exact Hs|]. intros target.
  change (findElement ?a ?t) with (binarySearch a t).
  split; exact (skipped_search arr Hsz target).
Qed.

Lemma oversized_silent_witness :
  2 ^ 31 < vsize (zeros (2 ^ 31 + 1)) ≤ 2 ^ 32
  ∧ bubbleSort (zeros (2 ^ 31 + 1)) = Ret (zeros (2 ^ 31 + 1))
  ∧ sortArray (zeros (2 ^ 31 + 1)) = Ret (zeros (2 ^ 31 + 1))
  ∧ ∀ target, binarySearch (zeros (2 ^ 31 + 1)) target = Ret (-1)
              ∧ findElement (zeros (2 ^ 31 + 1)) target = Ret (-1).
Proof.
  assert (Hsz : 2 ^ 31 < vsize (zeros (2 ^ 31 + 1)) ≤ 2 ^ 32).
  { rewrite vsize_zeros; lia. }
  split; [exact Hsz | exact (oversized_silent (zeros (2 ^ 31 + 1)) Hsz)].
Defined.

(** * Comparison counts *)

Section inner_counts.
Variables (n i : Z) (bound : Z).
Hypothesis Hbound : wrap (wrap (n - i) - 1) = bound.

(** An inner loop entered at [j] makes [bound - j] comparisons. *)
Lemma bubbleSort_inner_counted_run fuel j arr cmp :
  0 ≤ j ≤ bound →
  bubbleSort_inner_counted fuel n i j arr cmp
  = (λ out, (out, (cmp + Z.to_nat (bound - j))%nat))
      <$> bubbleSort_inner fuel n i j arr.
Proof.
  revert j arr cmp. induction fuel as [|fuel IH]; intros j arr cmp Hj; [done|].
  pose proof (wrap_range (wrap (n - i) - 1)) as Hmax.
  cbn [bubbleSort_inner_counted bubbleSort_inner]. rewrite Hbound in *.
  destruct (Z.ltb_spec j bound) as [Hlt|Hge].
  - destruct (vget arr j) as [a| |]; [|done..]. rewrite !bind_Ret.
    destruct (vget arr (wrap (j + 1))) as [b| |]; [|done..]. rewrite !bind_Ret.
    destruct (if a >? b then vswap arr j (wrap (j + 1)) else Ret arr)
      as [arr1| |]; [|done..].
    rewrite !bind_Ret, IH by (rewrite wrap_id; int_arith).
    rewrite (wrap_id (j + 1)) by int_arith.
    by replace (S cmp + Z.to_nat (bound - (j + 1)))%nat
      with (cmp + Z.to_nat (bound - j))%nat by lia.
  - cbn [fmap outcome_fmap]. do 2 f_equal. lia.
Qed.

Lemma sortArray_inner_counted_run fuel j data swapped cmp :
  0 ≤ j ≤ bound →
  sortArray_inner_counted fuel n i j data swapped cmp
  = (λ '(out, sw), (out, sw, (cmp + Z.to_nat (bound - j))%nat))
      <$> sortArray_inner fuel n i j data swapped.
Proof.
  revert j data swapped cmp.
  induction fuel as [|fuel IH]; intros j data swapped cmp Hj; [done|].
  pose proof (wrap_range (wrap (n - i) - 1)) as Hmax.
  cbn [sortArray_inner_counted sortArray_inner]. rewrite Hbound in *.
  destruct (Z.ltb_spec j bound) as [Hlt|Hge].
  - assert (Hcnt : ∀ c, (S c + Z.to_nat (bound - wrap (j + 1)))%nat
                        = (c + Z.to_nat (bound - j))%nat).
    { intros c. rewrite (wrap_id (j + 1)) by int_arith. lia. }
    destruct (vget data j) as [a| |]; [|done..]. rewrite !bind_Ret.
    destruct (vget data (wrap (j + 1))) as [b| |]; [|done..].
    rewrite !bind_Ret.
    destruct (a >? b).
    + destruct (vset data j b) as [data1| |]; [|done..]. rewrite !bind_Ret.
      destruct (vset data1 (wrap (j + 1)) a) as [data2| |]; [|done..].
      rewrite !bind_Ret, IH by (rewrite wrap_id; int_arith).
      by rewrite Hcnt.
    + rewrite IH by (rewrite wrap_id; int_arith). by rewrite Hcnt.
  - cbn [fmap outcome_fmap]. do 2 f_equal. lia.
Qed.
End inner_counts.

Lemma triangle_double b : (2 * triangle b = b * (b + 1))%nat.
Proof. induction b as [|b IH]; [done|]. cbn [triangle]. lia. Qed.

Lemma exchange_comparisons_le b arr :
  (exchange_comparisons b arr ≤ triangle b)%nat.
Proof.
  revert arr. induction b as [|b IH]; intros arr; [done|].
  cbn [exchange_comparisons triangle].
  destruct (exchange_pass_swapped (S b) 0 arr); [|lia].
  specialize (IH (exchange_pass (S b) 0 arr)). lia.
Qed.

Lemma exchange_comparisons_ge b arr : (b ≤ exchange_comparisons b arr)%nat.
Proof.
  destruct b as [|b]; [done|]. cbn [exchange_comparisons].
  destruct (exchange_pass_swapped (S b) 0 arr); lia.
Qed.

Lemma exchange_comparisons_ordered b arr :
  ordered_upto b arr → exchange_comparisons b arr = b.
Proof.
  intros Hord. destruct b as [|b]; [done|]. cbn [exchange_comparisons].
  by destruct (exchange_pass_ordered (S b) (S b) 0 arr Hord) as [_ ->]; [lia|].
Qed.

(** [bubbleSort] makes every pass in full. *)
Lemma bubbleSort_outer_counted_run fuel sz i arr cmp :
  0 ≤ sz → 0 ≤ i →
  bubbleSort_outer_counted fuel (wrap sz) i arr cmp
  = (λ out, (out, (cmp + triangle (Z.to_nat (wrap (wrap sz - 1) - i)))%nat))
      <$> bubbleSort_outer fuel (wrap sz) i arr.
Proof.
  intros Hsz. revert i arr cmp.
  induction fuel as [|fuel IH]; intros i arr cmp Hi; [done|].
  cbn [bubbleSort_outer_counted bubbleSort_outer].
  destruct (Z.ltb_spec i (wrap (wrap sz - 1))) as [Hlt|Hge].
  - destruct (inner_bound sz i) as (Hb & _ & Hw); [lia | lia |].
    rewrite (bubbleSort_inner_counted_run _ _ _ Hb) by lia.
    destruct (bubbleSort_inner fuel (wrap sz) i 0 arr) as [arr1| |]; [|done..].
    cbn [fmap outcome_fmap]. rewrite !bind_Ret, Hw, IH by lia.
    replace (Z.to_nat (wrap (wrap sz - 1) - i))
      with (S (Z.to_nat (wrap (wrap sz - 1) - (i + 1)))) by lia.
    cbn [triangle].
    destruct (bubbleSort_outer fuel (wrap sz) (i + 1) arr1); [|done..].
    cbn [fmap outcome_fmap]. do 2 f_equal. lia.
  - replace (Z.to_nat (wrap (wrap sz - 1) - i)) with O by lia.
    cbn [fmap outcome_fmap triangle]. do 2 f_equal. lia.
Qed.

Lemma bubbleSort_counted_passes arr :
  bubbleSort_counted arr
  = Ret (exchange_passes (pass_count (vsize arr)) arr,
         triangle (pass_count (vsize arr))).
Proof.
  unfold bubbleSort_counted.
  rewrite bubbleSort_outer_counted_run by (unfold vsize; lia).
  change (bubbleSort_outer (S (length arr)) (wrap (vsize arr)) 0 arr)
    with (bubbleSort arr).
  rewrite bubbleSort_passes. cbn [fmap outcome_fmap].
  by rewrite Z.sub_0_r.
Qed.

(** [sortArray] makes its passes in full up to the first one without
    exchange. *)
Lemma sortArray_outer_counted_passes fuel i data cmp :
  0 ≤ i →
  Z.max (wrap (wrap (vsize data) - 1) - i + 1) 0 < Z.of_nat fuel →
  sortArray_outer_counted fuel (wrap (vsize data)) i data cmp
  = Ret (exchange_passes (Z.to_nat (wrap (wrap (vsize data) - 1) - i)) data,
         (cmp + exchange_comparisons
                  (Z.to_nat (wrap (wrap (vsize data) - 1) - i)) data)%nat).
Proof.
  revert i data cmp.
  induction fuel as [|fuel IH]; intros i data cmp Hi Hfuel; [lia|].
  cbn [sortArray_outer_counted].
  destruct (Z.ltb_spec i (wrap (wrap (vsize data) - 1))) as [Hlt|Hge].
  - destruct (inner_bound (vsize data) i) as (Hb & Hsz & Hw);
      [unfold vsize; lia | lia |].
    rewrite (sortArray_inner_counted_run _ _ _ Hb) by lia.
    rewrite (sortArray_inner_pass _ _ _ Hb) by lia.
    cbn [fmap outcome_fmap]. rewrite bind_Ret, Hw, Z.sub_0_r.
    change (Z.to_nat 0) with O.
    replace (Z.to_nat (wrap (wrap (vsize data) - 1) - i))
      with (S (Z.to_nat (wrap (wrap (vsize data) - 1) - (i + 1)))) by lia.
    set (b := Z.to_nat (wrap (wrap (vsize data) - 1) - (i + 1))).
    cbn [orb exchange_passes exchange_comparisons].
    destruct (exchange_pass_swapped (S b) 0 data) eqn:Hsw; cbn [negb].
    + rewrite <- (vsize_exchange_pass (S b) 0 data) at 1.
      rewrite IH by (rewrite ?vsize_exchange_pass; lia).
      rewrite vsize_exchange_pass. fold b. do 2 f_equal. lia.
    + destruct (exchange_pass_not_swapped _ _ _ Hsw) as [Heq Hord].
      rewrite Heq. do 2 f_equal. symmetry. apply exchange_passes_ordered.
      intros k x y Hk. apply Hord. lia.
  - replace (Z.to_nat (wrap (wrap (vsize data) - 1) - i)) with O by lia.
    cbn [exchange_passes exchange_comparisons]. do 2 f_equal. lia.
Qed.

Lemma sortArray_counted_passes data :
  sortArray_counted data
  = Ret (exchange_passes (pass_count (vsize data)) data,
         exchange_comparisons (pass_count (vsize data)) data).
Proof.
  unfold sortArray_counted.
  rewrite sortArray_outer_counted_passes
    by (lia || apply default_fuel; lia).
  by rewrite Z.sub_0_r.
Qed.

Example comparisons_descending :
  bubbleSort_counted [5; 4; 3; 2; 1] = Ret ([1; 2; 3; 4; 5], 10%nat)
  ∧ sortArray_counted [5; 4; 3; 2; 1] = Ret ([1; 2; 3; 4; 5], 10%nat).
Proof. split; vm_compute; reflexivity. Qed.

Example comparisons_ascending :
  bubbleSort_counted [1; 2; 3; 4; 5] = Ret ([1; 2; 3; 4; 5], 10%nat)
  ∧ sortArray_counted [1; 2; 3; 4; 5] = Ret ([1; 2; 3; 4; 5], 4%nat).
Proof. split; vm_compute; reflexivity. Qed.

(** X8. [bubbleSort] compares [n (n - 1) / 2] pairs on every vector of
    [n ≤ INT_MAX] elements, whatever their order. *)
Theorem bubbleSort_comparisons (arr : list Z) :
  fits_int arr →
  ∃ out c, bubbleSort_counted arr = Ret (out, c)
           ∧ bubbleSort arr = Ret out
           ∧ 2 * Z.of_nat c = vsize arr * (vsize arr - 1).
Proof.
  intros Hfits. rewrite bubbleSort_counted_passes, bubbleSort_passes.
  do 2 eexists. split; [done|]. split; [done|].
  rewrite pass_count_fits by done.
  pose proof (triangle_double (length arr - 1)) as Ht.
  unfold vsize. destruct arr as [|a arr]; [done|].
  cbn [length] in *. replace (S (length arr) - 1)%nat with (length arr) in * by lia.
  nia.
Qed.

Lemma bubbleSort_comparisons_witness :
  fits_int [1; 2; 3; 4]
  ∧ ∃ out c, bubbleSort_counted [1; 2; 3; 4] = Ret (out, c)
             ∧ bubbleSort [1; 2; 3; 4] = Ret out
             ∧ 2 * Z.of_nat c = vsize [1; 2; 3; 4] * (vsize [1; 2; 3; 4] - 1).
Proof.
  assert (H : fits_int [1; 2; 3; 4]).
  { unfold fits_int, vsize, INT_MAX. simpl. lia. }
  split; [exact H | exact (bubbleSort_comparisons [1; 2; 3; 4] H)].
Defined.

(** X9. [sortArray] compares at least [n - 1] and at most [n (n - 1) / 2]
    pairs on a vector of [n ≤ INT_MAX] elements: never more than
    [bubbleSort]. *)
Theorem sortArray_comparisons (data : list Z) :
  fits_int data →
  ∃ out c, sortArray_counted data = Ret (out, c)
           ∧ sortArray data = Ret out
           ∧ (length data - 1 ≤ c)%nat
           ∧ 2 * Z.of_nat c ≤ vsize data * (vsize data - 1).
Proof.
  intros Hfits. rewrite sortArray_counted_passes, sortArray_passes.
  do 2 eexists. split; [done|]. split; [done|].
  rewrite pass_count_fits by done.
  split; [apply exchange_comparisons_ge|].
  pose proof (exchange_comparisons_le (length data - 1) data) as Hle.
  pose proof (triangle_double (length data - 1)) as Ht.
  unfold vsize. destruct data as [|a data]; [done|].
  cbn [length] in *.
  replace (S (length data) - 1)%nat with (length data) in * by lia.
  nia.
Qed.

Lemma sortArray_comparisons_witness :
  fits_int [2; 1; 3; 4]
  ∧ ∃ out c, sortArray_counted [2; 1; 3; 4] = Ret (out, c)
             ∧ sortArray [2; 1; 3; 4] = Ret out
             ∧ (length [2; 1; 3; 4] - 1 ≤ c)%nat
             ∧ 2 * Z.of_nat c ≤ vsize [2; 1; 3; 4] * (vsize [2; 1; 3; 4] - 1).
Proof.
  assert (H : fits_int [2; 1; 3; 4]).
  { unfold fits_int, vsize, INT_MAX. simpl. lia. }
  split; [exact H | exact (sortArray_comparisons [2; 1; 3; 4] H)].
Defined.

(** X10. On a vector of [n ≤ INT_MAX] elements already in ascending order
    [sortArray] compares only the [n - 1] pairs of its first pass (none when
    the vector is empty) and returns the vector as it is. *)
Theorem sortArray_best_case (data : list Z) :
  fits_int data → sorted data →
  sortArray_counted data = Ret (data, (length data - 1)%nat).
Proof.
  intros Hfits Hs. rewrite sortArray_counted_passes.
  rewrite pass_count_fits by done.
  rewrite exchange_passes_ordered by by apply sorted_ordered_upto.
  by rewrite exchange_comparisons_ordered by by apply sorted_ordered_upto.
Qed.

Lemma sortArray_best_case_witness :
  fits_int [1; 2; 2; 5] ∧ sorted [1; 2; 2; 5]
  ∧ sortArray_counted [1; 2; 2; 5] = Ret ([1; 2; 2; 5], (length [1; 2; 2; 5] - 1)%nat).
Proof.
  assert (H : fits_int [1; 2; 2; 5]).
  { unfold fits_int, vsize, INT_MAX. simpl. lia. }
  assert (Hs : sorted [1; 2; 2; 5]) by (apply sortedb_sorted; reflexivity).
  split; [exact H|]. split; [exact Hs|].
  exact (sortArray_best_case [1; 2; 2; 5] H Hs).
Defined.
